(** * Elemental: primal-dual interior-point method for affine conic QPs

    A shallow embedding of [src/optimization/solvers/QP/affine/IPM/IPM.cpp]:
    the two scalar helpers at the top of the file, the sequential dense
    overload of [qp::affine::IPM] and the regularisation and solve stage of
    the sequential sparse overload; and of the two overloads of
    [internal::HermitianFrobeniusNorm] for a real matrix in
    [HermitianFrobeniusNorm.hpp].

    The template parameter [Real] is instantiated with the exact rationals
    of [QArith]; rounding is not modelled.  Column vectors
    ([Matrix<Real>] of width one) are lists of scalars.  The dense and
    sparse matrix kernels the driver calls (BLAS products, equilibration, the
    LDL factorisation, the initialiser) are collaborators that live outside
    this file: they are fields of a backend class and every theorem holds
    for all of their implementations.  Diagnostic output ([ctrl.print],
    [ctrl.checkResiduals], indentation) has no effect on the state and is
    left out. *)

From Stdlib Require Import QArith Qabs ZArith String List Bool Lia.
Import ListNotations.
Open Scope Q_scope.

(** ** Scalars

    The template parameter [Real] is modelled by the exact rationals: the
    development is about which expressions the code evaluates, in which
    order it tests them, what it writes and how it ends, not about
    rounding, overflow or NaN.  Division in [Q] is total with [x / 0 = 0],
    where the code's division gives an infinity or a NaN; this matters for
    [mu] and [muAff] when [k = 0], and what is proved for that case does
    not depend on their values. *)

Abbreviation Real := Q (only parsing).

(** [a < b] on [Real], as a boolean. *)
Definition Qlt_bool (a b : Real) : bool := negb (Qle_bool b a).

(** [El::Max] and [El::Min] forward to [std::max] and [std::min]. *)
Definition Max (a b : Real) : Real := if Qlt_bool a b then b else a.
Definition Min (a b : Real) : Real := if Qlt_bool b a then b else a.
Definition Abs (a : Real) : Real := Qabs a.

(** IPM.cpp lines 15-28. *)
Definition RelativeComplementarityGap
  (primalObj dualObj dualityProduct : Real) : Real :=
  if Qlt_bool primalObj 0 then dualityProduct / - primalObj
  else if Qlt_bool 0 dualObj then dualityProduct / dualObj
  else 2.

(** IPM.cpp lines 31-39. *)
Definition RelativeObjectiveGap
  (primalObj dualObj dualityProduct : Real) : Real :=
  Abs (primalObj - dualObj) / (Max (Abs primalObj) (Abs dualObj) + 1).

(** ** Column vectors

    The vector kernels below are Elemental routines defined outside
    [IPM.cpp]; they are written out entrywise from what the specification
    and the comments of [IPM.cpp] say about them.  Elemental asserts
    conforming dimensions; on lists of different lengths the common prefix
    is used. *)

Definition Vec := list Real.

Fixpoint zipWith (f : Real -> Real -> Real) (X Y : Vec) : Vec :=
  match X, Y with
  | x :: X', y :: Y' => f x y :: zipWith f X' Y'
  | _, _ => []
  end.

(** Modelled from the spec: [Ones( d, m, 1 )] and [Zeros( d, n, 1 )] are
    not among the sources; section 4.6 has "else set all D scalings to
    1". *)
Definition Ones (m : Z) : Vec := repeat 1 (Z.to_nat m).
Definition Zeros (n : Z) : Vec := repeat 0 (Z.to_nat n).

(** Modelled from the spec: [Dot( x, y )] is not among the sources;
    section 3 has "duality product pi = s^T z". *)
Definition Dot (x y : Vec) : Real := fold_right Qplus 0 (zipWith Qmult x y).

(** Modelled from the spec: [X *= alpha] of [Matrix<Real>] is not among
    the sources; section 3 has the large regularisation "scaled by" the
    norm estimate. *)
Definition Scale (alpha : Real) (X : Vec) : Vec := map (fun v => v * alpha) X.

(** Modelled from the spec: [Y += X] of [Matrix<Real>] is not among the
    sources; section 4.5 has "r_mu <- r_mu + ds_aff o dz_aff". *)
Definition AddTo (X Y : Vec) : Vec := zipWith (fun xi yi => yi + xi) X Y.

(** Modelled from the spec: [Axpy( alpha, X, Y )] is not among the
    sources; section 4.6 has "x <- x + alpha_p dx". *)
Definition Axpy (alpha : Real) (X Y : Vec) : Vec :=
  zipWith (fun xi yi => yi + alpha * xi) X Y.

(** Modelled from the spec: [Shift( X, alpha )] is not among the sources;
    section 4.5 has "Shift r_mu <- r_mu - sigma mu 1". *)
Definition Shift (X : Vec) (alpha : Real) : Vec := map (fun v => v + alpha) X.

(** Modelled from the spec: [DiagonalScale( LEFT, NORMAL, d, X )] is not
    among the sources; section 3 has "r_mu = s o z (Hadamard)" for what
    lines 287-288 build with it. *)
Definition DiagonalScale (d X : Vec) : Vec := zipWith (fun di xi => xi * di) d X.

(** Modelled from the spec: [DiagonalSolve( LEFT, NORMAL, d, X )] is not
    among the sources; section 3 has "b <- D_A^-1 b, h <- D_G^-1 h,
    c <- D^-1 c" for lines 120-122. *)
Definition DiagonalSolve (d X : Vec) : Vec := zipWith (fun di xi => xi / di) d X.

(** Modelled from the spec: [pos_orth::NumOutside] is not among the
    sources; it counts the nonpositive entries of its argument (section
    4.6, "count nonpositive entries of s and z"; the message built at
    IPM.cpp lines 183-185 says the same). *)
Definition NumOutside (v : Vec) : Z :=
  Z.of_nat (length (filter (fun vi => Qle_bool vi 0) v)).

(** The step to the boundary along the components that decrease:
    the ratios [-v_i / dv_i] over the indices with [dv_i < 0]. *)
Fixpoint boundary_ratios (v dv : Vec) : list Real :=
  match v, dv with
  | vi :: v', dvi :: dv' =>
      if Qlt_bool dvi 0 then (- vi / dvi) :: boundary_ratios v' dv'
      else boundary_ratios v' dv'
  | _, _ => []
  end.

(** Modelled from the spec: [pos_orth::MaxStep] is not among the sources.
    The specification (section 4.5) has "alpha_max(v, dv, a) = min(a, min
    over i with dv_i < 0 of -v_i / dv_i); if no negative components,
    alpha_max = a". *)
Definition MaxStep (v dv : Vec) (upperBound : Real) : Real :=
  fold_left Min (boundary_ratios v dv) upperBound.

(** ** Exceptions

    [LogicError] and [RuntimeError] take a variadic list of arguments that
    are streamed into the message; the list is kept as it is passed. *)

Inductive Arg :=
| AStr (text : string)
| AInt (value : Z).

Inductive Exception :=
| LogicError (msg : list Arg)
| RuntimeError (msg : list Arg)
| SolveException.   (* whatever an uncaught [ldl::SolveAfter] throws *)

(** ** Control structure

    The fields of [IPMCtrl<Real>] that [IPM.cpp] reads. *)

Record RegSolveCtrl := {
  relTol : Real;
  maxRefineIts : Z;
  progress : bool
}.

Record IPMCtrl := {
  primalInit : bool;
  dualInit : bool;
  standardInitShift : bool;
  outerEquil : bool;
  maxIts : Z;
  infeasibilityTol : Real;
  relativeObjectiveGapTol : Real;
  relativeComplementarityGapTol : Real;
  minDimacsDecreaseRatio : Real;
  maxStepRatio : Real;
  forceSameStep : bool;
  mehrotra : bool;
  centralityRule : Real -> Real -> Real -> Real -> Real;
  xRegSmall : Real;
  yRegSmall : Real;
  zRegSmall : Real;
  xRegLarge : Real;
  yRegLarge : Real;
  zRegLarge : Real;
  twoStage : bool;
  solveCtrl : RegSolveCtrl;
  twoNormKrylovBasisSize : Z
}.

Inductive Orientation := NORMAL | TRANSPOSE.
Inductive LeftOrRight := LEFT | RIGHT.

(** The four iterates, which the caller passes by reference. *)
Record Iterates := {
  it_x : Vec;
  it_y : Vec;
  it_z : Vec;
  it_s : Vec
}.

(** How a call ends. *)
Inductive Result :=
| Returned
| Raised (e : Exception).

(** The body of the [for] loop either falls through to the next
    iteration, leaves the loop with [break], or throws.  The state is kept
    in all three cases: the iterates are the caller's objects. *)
Inductive Flow (S : Type) :=
| Continue (st : S)
| Break (st : S)
| Throw (e : Exception) (st : S).
Arguments Continue {S} st.
Arguments Break {S} st.
Arguments Throw {S} e st.

(** ** The dense backend

    Everything the sequential dense overload calls on [Matrix<Real>]
    operands of width larger than one, together with the routines of
    [util.hpp] and the norm (which needs a square root). *)
Class DenseBackend := {
  Matrix : Type;
  Height : Matrix -> Z;
  Width : Matrix -> Z;
  (** [StackedRuizEquil( A, G, dRowA, dRowG, dCol, print )] rescales [A]
      and [G] in place and outputs the three scalings. *)
  StackedRuizEquil : Matrix -> Matrix -> Matrix * Matrix * Vec * Vec * Vec;
  (** [DiagonalSolve( side, NORMAL, d, M )] on a matrix. *)
  DiagonalSolveMatrix : LeftOrRight -> Vec -> Matrix -> Matrix;
  Nrm2 : Vec -> Real;
  (** [Hemv( LOWER, alpha, M, x, beta, y )] returns the new [y]. *)
  Hemv : Real -> Matrix -> Vec -> Real -> Vec -> Vec;
  (** [Gemv( orient, alpha, M, x, beta, y )] returns the new [y]. *)
  Gemv : Orientation -> Real -> Matrix -> Vec -> Real -> Vec -> Vec;
  (** [Initialize( Q, A, G, b, c, h, x, y, z, s, primalInit, dualInit,
      standardInitShift )] returns the new iterates. *)
  Initialize :
    Matrix -> Matrix -> Matrix -> Vec -> Vec -> Vec -> Iterates ->
    bool -> bool -> bool -> Iterates;
  KKT : Matrix -> Matrix -> Matrix -> Vec -> Vec -> Matrix;
  KKTRHS : Vec -> Vec -> Vec -> Vec -> Vec -> Vec;
  (** [LDL( J, dSub, p, false )] overwrites [J] with its factors; [None]
      stands for a thrown exception. *)
  Factorization : Type;
  LDL : Matrix -> option Factorization;
  (** [ldl::SolveAfter( J, dSub, p, d, false )] returns the new [d]. *)
  SolveAfter : Factorization -> Vec -> option Vec;
  (** [ExpandSolution( m, n, d, rmu, s, z, dx, dy, dz, ds )]. *)
  ExpandSolution : Z -> Z -> Vec -> Vec -> Vec -> Vec -> Vec * Vec * Vec * Vec
}.

(** The objects of the caller that a call of [IPM] can reach: the six
    [const] references and the four iterates, taken to be ten distinct
    objects. *)
Record CallerStore `{DenseBackend} := {
  QPre : Matrix;
  APre : Matrix;
  GPre : Matrix;
  bPre : Vec;
  cPre : Vec;
  hPre : Vec;
  iterates : Iterates
}.

(** What the loop carries from one iteration to the next: the caller's
    objects and the three scalars declared in front of the loop. *)
Record LoopState `{DenseBackend} := {
  mem : CallerStore;
  infeasError : Real;
  dimacsError : Real;
  dimacsErrorOld : Real
}.

(** The quantities lines 187-236 compute from the current iterate. *)
Record Gaps := {
  dualProd : Real;
  mu : Real;
  primObj : Real;
  dualObj : Real;
  relObjGap : Real;
  relCompGap : Real;
  maxRelGap : Real;
  rb : Vec;
  rbConv : Real;
  rc : Vec;
  rcConv : Real;
  rh : Vec;
  rhConv : Real
}.

Section DenseDriver.
Context `{DenseBackend}.
Variable ctrl : IPMCtrl.

(** Assignments through the references [x], [y], [z], [s]. *)
Definition write_iterates (it : Iterates) (st : CallerStore) : CallerStore :=
  {| QPre := QPre st; APre := APre st; GPre := GPre st;
     bPre := bPre st; cPre := cPre st; hPre := hPre st;
     iterates := it |}.

Definition write_mem (st : CallerStore) (ls : LoopState) : LoopState :=
  {| mem := st;
     infeasError := infeasError ls;
     dimacsError := dimacsError ls;
     dimacsErrorOld := dimacsErrorOld ls |}.

(** Two stores agree on the six [const] arguments. *)
Definition same_problem_data (st st' : CallerStore) : Prop :=
  QPre st' = QPre st /\ APre st' = APre st /\ GPre st' = GPre st /\
  bPre st' = bPre st /\ cPre st' = cPre st /\ hPre st' = hPre st.

(** The state a [Flow] carries. *)
Definition flow_state (f : Flow LoopState) : LoopState :=
  match f with
  | Continue ls | Break ls | Throw _ ls => ls
  end.

(** The exceptions that leave the dense overload: the three it throws
    itself and the one of the second, uncaught [ldl::SolveAfter]. *)
Definition driver_exception (e : Exception) : Prop :=
  (exists sNumNonPos zNumNonPos,
     (0 < sNumNonPos \/ 0 < zNumNonPos)%Z /\
     e = LogicError
           [AInt sNumNonPos; AStr " entries of s were nonpositive and ";
            AInt zNumNonPos; AStr " entries of z were nonpositive"]) \/
  e = RuntimeError
        [AStr "Maximum number of iterations ("; AInt (maxIts ctrl);
         AStr ") exceeded without "; AStr "achieving tolerances"] \/
  e = RuntimeError [AStr "Could not achieve tolerances"] \/
  e = SolveException.

(** Lines 285-288: [rmu = z; DiagonalScale( LEFT, NORMAL, s, rmu )]. *)
Definition complementarity_residual (s z : Vec) : Vec :=
  let rmu := z in
  DiagonalScale s rmu.

(** Lines 368-377: the shift by [-sigma*mu] and the corrector term. *)
Definition combined_rmu (rmu : Vec) (sigma mu : Real) (dsAff dzAff : Vec)
  : Vec :=
  let rmu := Shift rmu (- sigma * mu) in
  if mehrotra ctrl then
    let dz := dzAff in
    let dz := DiagonalScale dsAff dz in
    AddTo dz rmu
  else rmu.

(** Lines 388-393: the step lengths of the update. *)
Definition step_lengths (s ds z dz : Vec) : Real * Real :=
  let alphaPri := MaxStep s ds (1 / maxStepRatio ctrl) in
  let alphaDual := MaxStep z dz (1 / maxStepRatio ctrl) in
  let alphaPri := Min (maxStepRatio ctrl * alphaPri) 1 in
  let alphaDual := Min (maxStepRatio ctrl * alphaDual) 1 in
  if forceSameStep ctrl
  then (Min alphaPri alphaDual, Min alphaPri alphaDual)
  else (alphaPri, alphaDual).

(** Lines 346-349: the step lengths of the affine direction. *)
Definition affine_step_lengths (s dsAff z dzAff : Vec) : Real * Real :=
  let alphaAffPri := MaxStep s dsAff 1 in
  let alphaAffDual := MaxStep z dzAff 1 in
  if forceSameStep ctrl
  then (Min alphaAffPri alphaAffDual, Min alphaAffPri alphaAffDual)
  else (alphaAffPri, alphaAffDual).

(** Lines 388-411 on their own, given the combined direction: the step
    lengths, the update and the exit on a zero step. *)
Definition take_step (met : bool) (ls : LoopState) (dx dy dz ds : Vec)
  : Flow LoopState :=
  let x := it_x (iterates (mem ls)) in
  let y := it_y (iterates (mem ls)) in
  let z := it_z (iterates (mem ls)) in
  let s := it_s (iterates (mem ls)) in
  let '(alphaPri, alphaDual) := step_lengths s ds z dz in
  let x := Axpy alphaPri dx x in
  let s := Axpy alphaPri ds s in
  let y := Axpy alphaDual dy y in
  let z := Axpy alphaDual dz z in
  let ls :=
    write_mem
      (write_iterates
         {| it_x := x; it_y := y; it_z := z; it_s := s |}
         (mem ls)) ls in
  if Qeq_bool alphaPri 0 && Qeq_bool alphaDual 0 then
    if met then Break ls
    else Throw (RuntimeError [AStr "Could not achieve tolerances"]) ls
  else Continue ls.

Section Loop.
(** The private copies of the problem data (after equilibration), the
    dimensions and the norms taken in front of the loop. *)
Variables Q A G : Matrix.
Variables b c h : Vec.
Variables m k n : Z.
Variables bNrm2 cNrm2 hNrm2 : Real.

Let degree : Z := k.

(** Lines 187-230. *)
Definition gaps (it : Iterates) : Gaps :=
  let x := it_x it in
  let y := it_y it in
  let z := it_z it in
  let s := it_s it in
  let dualProd := Dot s z in
  let mu := dualProd / inject_Z k in
  let d := Zeros n in
  let d := Hemv 1 Q x 0 d in
  let xTQx := Dot x d in
  let primObj := xTQx / 2 + Dot c x in
  let dualObj := - xTQx / 2 - Dot b y - Dot h z in
  let relObjGap := RelativeObjectiveGap primObj dualObj dualProd in
  let relCompGap := RelativeComplementarityGap primObj dualObj dualProd in
  let maxRelGap := Max relObjGap relCompGap in
  let rb := b in
  let rb := Scale (-1) rb in
  let rb := Gemv NORMAL 1 A x 1 rb in
  let rbNrm2 := Nrm2 rb in
  let rbConv := rbNrm2 / (1 + bNrm2) in
  let rc := c in
  let rc := Hemv 1 Q x 1 rc in
  let rc := Gemv TRANSPOSE 1 A y 1 rc in
  let rc := Gemv TRANSPOSE 1 G z 1 rc in
  let rcNrm2 := Nrm2 rc in
  let rcConv := rcNrm2 / (1 + cNrm2) in
  let rh := h in
  let rh := Scale (-1) rh in
  let rh := Gemv NORMAL 1 G x 1 rh in
  let rh := AddTo s rh in
  let rhNrm2 := Nrm2 rh in
  let rhConv := rhNrm2 / (1 + hNrm2) in
  {| dualProd := dualProd; mu := mu;
     primObj := primObj; dualObj := dualObj;
     relObjGap := relObjGap; relCompGap := relCompGap;
     maxRelGap := maxRelGap;
     rb := rb; rbConv := rbConv;
     rc := rc; rcConv := rcConv;
     rh := rh; rhConv := rhConv |}.

(** Lines 353-358: [ds] and [dz] are used as temporaries. *)
Definition affine_duality_measure (s dsAff z dzAff : Vec)
  (alphaAffPri alphaAffDual : Real) : Real :=
  let ds := s in
  let dz := z in
  let ds := Axpy alphaAffPri dsAff ds in
  let dz := Axpy alphaAffDual dzAff dz in
  Dot ds dz / inject_Z degree.

(** Lines 234-236. *)
Definition record_errors (g : Gaps) (ls : LoopState) : LoopState :=
  let dimacsErrorOld := dimacsError ls in
  let infeasError := Max (Max (rbConv g) (rcConv g)) (rhConv g) in
  let dimacsError := Max infeasError (maxRelGap g) in
  {| mem := mem ls;
     infeasError := infeasError;
     dimacsError := dimacsError;
     dimacsErrorOld := dimacsErrorOld |}.

(** Lines 257-260. *)
Definition metTolerances (g : Gaps) (ls : LoopState) : bool :=
  Qle_bool (infeasError ls) (infeasibilityTol ctrl) &&
  Qle_bool (relCompGap g) (relativeComplementarityGapTol ctrl) &&
  Qle_bool (relObjGap g) (relativeObjectiveGapTol ctrl).

(** Lines 282-411: the affine direction, the centrality parameter, the
    combined direction and the update. *)
Definition newton_step (met : bool) (g : Gaps) (ls : LoopState)
  : Flow LoopState :=
  let x := it_x (iterates (mem ls)) in
  let y := it_y (iterates (mem ls)) in
  let z := it_z (iterates (mem ls)) in
  let s := it_s (iterates (mem ls)) in
  let rmu := complementarity_residual s z in
  let J := KKT Q A G s z in
  let d := KKTRHS (rc g) (rb g) (rh g) rmu z in
  let attempt :=
    match LDL J with
    | Some J =>
        match SolveAfter J d with
        | Some d => Some (J, d)
        | None => None
        end
    | None => None
    end in
  match attempt with
  | None =>
      if met then Break ls
      else Throw (RuntimeError [AStr "Could not achieve tolerances"]) ls
  | Some (J, d) =>
      let '(dxAff, dyAff, dzAff, dsAff) :=
        ExpandSolution m n d rmu s z in
      let '(alphaAffPri, alphaAffDual) :=
        affine_step_lengths s dsAff z dzAff in
      let muAff :=
        affine_duality_measure s dsAff z dzAff alphaAffPri alphaAffDual in
      let sigma :=
        centralityRule ctrl (mu g) muAff alphaAffPri alphaAffDual in
      let rmu := combined_rmu rmu sigma (mu g) dsAff dzAff in
      let d := KKTRHS (rc g) (rb g) (rh g) rmu z in
      match SolveAfter J d with
      | None => Throw SolveException ls
      | Some d =>
          let '(dx, dy, dz, ds) := ExpandSolution m n d rmu s z in
          let '(alphaPri, alphaDual) := step_lengths s ds z dz in
          let x := Axpy alphaPri dx x in
          let s := Axpy alphaPri ds s in
          let y := Axpy alphaDual dy y in
          let z := Axpy alphaDual dz z in
          let ls :=
            write_mem
              (write_iterates
                 {| it_x := x; it_y := y; it_z := z; it_s := s |}
                 (mem ls)) ls in
          if Qeq_bool alphaPri 0 && Qeq_bool alphaDual 0 then
            if met then Break ls
            else
              Throw (RuntimeError [AStr "Could not achieve tolerances"])
                ls
          else Continue ls
      end
  end.

(** Lines 187-411: what an iteration does once [s] and [z] have
    passed the cone check. *)
Definition check_convergence (numIts : Z) (ls : LoopState)
  : Flow LoopState :=
  let g := gaps (iterates (mem ls)) in
  let ls := record_errors g ls in
  let met := metTolerances g ls in
  if met then
    if Qle_bool (minDimacsDecreaseRatio ctrl * dimacsErrorOld ls)
                (dimacsError ls)
    then Break ls
    else if (numIts =? maxIts ctrl)%Z then Break ls
    else newton_step met g ls
  else if (numIts =? maxIts ctrl)%Z then
    Throw
      (RuntimeError
         [AStr "Maximum number of iterations ("; AInt (maxIts ctrl);
          AStr ") exceeded without "; AStr "achieving tolerances"])
      ls
  else newton_step met g ls.

(** Lines 177-412: the body of the loop. *)
Definition iteration (numIts : Z) (ls : LoopState) : Flow LoopState :=
  let s := it_s (iterates (mem ls)) in
  let z := it_z (iterates (mem ls)) in
  let sNumNonPos := NumOutside s in
  let zNumNonPos := NumOutside z in
  if ((0 <? sNumNonPos) || (0 <? zNumNonPos))%Z then
    Throw
      (LogicError
         [AInt sNumNonPos; AStr " entries of s were nonpositive and ";
          AInt zNumNonPos; AStr " entries of z were nonpositive"])
      ls
  else check_convergence numIts ls.

(** Line 176: [for( Int numIts=0; numIts<=ctrl.maxIts; ++numIts )].
    [remaining] counts the values of [numIts] that are left, so the
    loop condition fails exactly when it is zero. *)
Fixpoint loop (remaining : nat) (numIts : Z) (ls : LoopState)
  : Result * LoopState :=
  match remaining with
  | O => (Returned, ls)
  | S remaining' =>
      match iteration numIts ls with
      | Continue ls' => loop remaining' (numIts + 1)%Z ls'
      | Break ls' => (Returned, ls')
      | Throw e ls' => (Raised e, ls')
      end
  end.
End Loop.

(** Lines 415-421. *)
Definition unscale (dRowA dRowG dCol : Vec) (it : Iterates) : Iterates :=
  let x := DiagonalSolve dCol (it_x it) in
  let y := DiagonalSolve dRowA (it_y it) in
  let z := DiagonalSolve dRowG (it_z it) in
  let s := DiagonalScale dRowG (it_s it) in
  {| it_x := x; it_y := y; it_z := z; it_s := s |}.

(** The private copies after lines 106-144, with the scalings. *)
Record Locals := {
  loc_Q : Matrix;
  loc_A : Matrix;
  loc_G : Matrix;
  loc_b : Vec;
  loc_c : Vec;
  loc_h : Vec;
  loc_m : Z;
  loc_k : Z;
  loc_n : Z;
  dRowA : Vec;
  dRowG : Vec;
  dCol : Vec
}.

(** Lines 106-144: the copies and the outer equilibration. *)
Definition equilibrate (st : CallerStore) : Locals * CallerStore :=
  let A := APre st in
  let G := GPre st in
  let b := bPre st in
  let c := cPre st in
  let h := hPre st in
  let Q := QPre st in
  let m := Height A in
  let k := Height G in
  let n := Width A in
  if outerEquil ctrl then
    let '(A, G, dRowA, dRowG, dCol) := StackedRuizEquil A G in
    let b := DiagonalSolve dRowA b in
    let h := DiagonalSolve dRowG h in
    let c := DiagonalSolve dCol c in
    let Q := DiagonalSolveMatrix LEFT dCol Q in
    let Q := DiagonalSolveMatrix RIGHT dCol Q in
    let x := it_x (iterates st) in
    let y := it_y (iterates st) in
    let z := it_z (iterates st) in
    let s := it_s (iterates st) in
    let x := if primalInit ctrl then DiagonalScale dCol x else x in
    let s := if primalInit ctrl then DiagonalSolve dRowG s else s in
    let y := if dualInit ctrl then DiagonalScale dRowA y else y in
    let z := if dualInit ctrl then DiagonalScale dRowG z else z in
    ({| loc_Q := Q; loc_A := A; loc_G := G;
        loc_b := b; loc_c := c; loc_h := h;
        loc_m := m; loc_k := k; loc_n := n;
        dRowA := dRowA; dRowG := dRowG; dCol := dCol |},
     write_iterates {| it_x := x; it_y := y; it_z := z; it_s := s |} st)
  else
    ({| loc_Q := Q; loc_A := A; loc_G := G;
        loc_b := b; loc_c := c; loc_h := h;
        loc_m := m; loc_k := k; loc_n := n;
        dRowA := Ones m; dRowG := Ones k; dCol := Ones n |},
     st).

(** The state in which the loop is entered: lines 146-167. *)
Definition enter_loop (st : CallerStore) : Locals * LoopState :=
  let '(loc, st) := equilibrate st in
  let it :=
    Initialize (loc_Q loc) (loc_A loc) (loc_G loc)
      (loc_b loc) (loc_c loc) (loc_h loc) (iterates st)
      (primalInit ctrl) (dualInit ctrl) (standardInitShift ctrl) in
  (loc,
   {| mem := write_iterates it st;
      infeasError := 1;
      dimacsError := 1;
      dimacsErrorOld := 1 |}).

(** The loop as the driver runs it. *)
Definition run_loop (loc : Locals) (ls : LoopState) : Result * LoopState :=
  let bNrm2 := Nrm2 (loc_b loc) in
  let cNrm2 := Nrm2 (loc_c loc) in
  let hNrm2 := Nrm2 (loc_h loc) in
  loop (loc_Q loc) (loc_A loc) (loc_G loc)
    (loc_b loc) (loc_c loc) (loc_h loc)
    (loc_m loc) (loc_k loc) (loc_n loc)
    bNrm2 cNrm2 hNrm2
    (Z.to_nat (maxIts ctrl + 1)) 0%Z ls.

(** IPM.cpp lines 89-422: the sequential dense overload.  The result
    pairs how the call ends with the caller's objects at that point. *)
Definition IPM (st : CallerStore) : Result * CallerStore :=
  let '(loc, ls) := enter_loop st in
  match run_loop loc ls with
  | (Raised e, ls) => (Raised e, mem ls)
  | (Returned, ls) =>
      if outerEquil ctrl then
        (Returned,
         write_iterates
           (unscale (dRowA loc) (dRowG loc) (dCol loc) (iterates (mem ls)))
           (mem ls))
      else (Returned, mem ls)
  end.
End DenseDriver.

(** ** The sparse backend

    A [SparseMatrix<Real>] is kept as its dimensions and the list of the
    updates queued into it; the value at a position is the sum of the
    updates queued there. *)

Record SparseMatrix := {
  sp_Height : Z;
  sp_Width : Z;
  sp_updates : list (Z * Z * Real)
}.

Definition sum_at (i j : Z) (updates : list (Z * Z * Real)) : Real :=
  fold_right
    (fun u acc =>
       let '(i', j', v) := u in
       if ((i' =? i) && (j' =? j))%Z then v + acc else acc)
    0 updates.

Definition entry (M : SparseMatrix) (i j : Z) : Real :=
  sum_at i j (sp_updates M).

(** The indices [0, ..., len-1] of a [for( Int i=0; i<len; ++i )]. *)
Definition indices (len : Z) : list Z := map Z.of_nat (seq 0 (Z.to_nat len)).

(** Entry [i] of a column vector, [v(i)]. *)
Definition at_index (v : Vec) (i : Z) : Real := nth (Z.to_nat i) v 0.

(** Modelled from the spec: [UpdateDiagonal( M, alpha, d )] is not among
    the sources; section 3 has the vector "added to J's diagonal only",
    "J_fact = J_orig + diag(tau)".  [alpha*d(i)] is queued on the entry
    [(i,i)], for every [i] on the diagonal. *)
Definition UpdateDiagonal (M : SparseMatrix) (alpha : Real) (d : Vec)
  : SparseMatrix :=
  {| sp_Height := sp_Height M;
     sp_Width := sp_Width M;
     sp_updates :=
       sp_updates M ++
       map (fun i => (i, i, alpha * at_index d i))
           (indices (Z.min (sp_Height M) (sp_Width M))) |}.

(** Modelled from the spec: [SparseLDLFactorization<Real>] is not among
    the sources; section 5 has "the sparse LDL^T factorization handle
    holds the symbolic structure and current numeric values; it is mutated
    only through the designated Initialize / ChangeNonzeroValues / Factor
    operations".  The handle is the matrix whose values it holds, if it
    has been initialised, and whether [Factor] has run on them. *)
Record SparseLDLFactorization := {
  held : option SparseMatrix;
  factored : bool
}.

(** [sparseLDLFact.Initialize( J, hermitian, bisectCtrl )]. *)
Definition LDLInitialize (J : SparseMatrix) : SparseLDLFactorization :=
  {| held := Some J; factored := false |}.

(** [sparseLDLFact.ChangeNonzeroValues( J )]. *)
Definition ChangeNonzeroValues (fact : SparseLDLFactorization)
  (J : SparseMatrix) : SparseLDLFactorization :=
  {| held := Some J; factored := false |}.

(** [sparseLDLFact.Factor()]. *)
Definition Factor (fact : SparseLDLFactorization) : SparseLDLFactorization :=
  {| held := held fact; factored := true |}.

Record RegSolveInfo := {
  metRequestedTol : bool
}.

Class SparseBackend := {
  HermitianTwoNormEstimate : SparseMatrix -> Z -> Real;
  TwoNormEstimate : SparseMatrix -> Z -> Real;
  (** [FinishKKT( m, n, s, z, J )] returns the new [J]. *)
  FinishKKT : Z -> Z -> Vec -> Vec -> SparseMatrix -> SparseMatrix;
  SparseKKTRHS : Vec -> Vec -> Vec -> Vec -> Vec -> Vec;
  (** [reg_ldl::SolveAfter( JOrig, regLarge, dInner, sparseLDLFact, d,
      solveCtrl )] returns its report and the new [d]. *)
  RegSolveAfter :
    SparseMatrix -> Vec -> Vec -> SparseLDLFactorization -> Vec ->
    RegSolveCtrl -> RegSolveInfo * Vec;
  (** [reg_ldl::RegularizedSolveAfter( JOrig, regLarge, dInner,
      sparseLDLFact, d, relTol, maxRefineIts, progress )]. *)
  RegularizedSolveAfter :
    SparseMatrix -> Vec -> Vec -> SparseLDLFactorization -> Vec ->
    Real -> Z -> bool -> RegSolveInfo * Vec
}.

(** How a solve of the sparse overload ends. *)
Inductive SolveOutcome :=
| Solved (d : Vec)
| SolveBreak
| SolveThrow (e : Exception).

(** What the sparse overload has built when the affine solve ends. *)
Record KKTStage := {
  stage_JOrig : SparseMatrix;
  stage_J : SparseMatrix;
  stage_fact : SparseLDLFactorization;
  stage_dInner : Vec;
  stage_d : Vec;
  stage_outcome : SolveOutcome
}.

Section SparseDriver.
Context `{SparseBackend}.
Variable ctrl : IPMCtrl.

(** Lines 899-903. *)
Definition origTwoNormEst (Q A G : SparseMatrix) : Real :=
  let twoNormEstQ :=
    HermitianTwoNormEstimate Q (twoNormKrylovBasisSize ctrl) in
  let twoNormEstA := TwoNormEstimate A (twoNormKrylovBasisSize ctrl) in
  let twoNormEstG := TwoNormEstimate G (twoNormKrylovBasisSize ctrl) in
  twoNormEstA + twoNormEstG + twoNormEstQ + 1.

(** Lines 915-923, with [m], [k], [n] of lines 862-864 and the estimate of
    line 903. *)
Definition regLargeInit (m k n : Z) (origTwoNormEst : Real) : Vec :=
  let regLarge :=
    map (fun i =>
           if (i <? n)%Z then xRegLarge ctrl
           else if (i <? n + m)%Z then - yRegLarge ctrl
           else - zRegLarge ctrl)
        (indices (n + m + k)) in
  Scale origTwoNormEst regLarge.

(** Lines 1104-1129 and 1202-1227: the two-stage solve.  [solveInfo]
    starts with [metRequestedTol] false: it is default-constructed at the
    first site and reset at the second. *)
Definition two_stage_solve (met : bool) (JOrig : SparseMatrix)
  (regLarge dInner : Vec) (sparseLDLFact : SparseLDLFactorization)
  (d : Vec) : SolveOutcome :=
  let solveInfo := {| metRequestedTol := false |} in
  let '(solveInfo, d) :=
    if twoStage ctrl then
      RegSolveAfter JOrig regLarge dInner sparseLDLFact d (solveCtrl ctrl)
    else (solveInfo, d) in
  if negb (metRequestedTol solveInfo) then
    let '(solveInfo, d) :=
      RegularizedSolveAfter JOrig regLarge dInner sparseLDLFact d
        (relTol (solveCtrl ctrl))
        (maxRefineIts (solveCtrl ctrl))
        (progress (solveCtrl ctrl)) in
    if negb (metRequestedTol solveInfo) then
      if met then SolveBreak
      else SolveThrow (RuntimeError [AStr "Could not achieve tolerances"])
    else Solved d
  else Solved d.

(** Lines 1063-1129: the KKT system, its factorisation and the affine
    solve of one iteration.  [FreezeSparsity] fixes the pattern of the
    copy and leaves its values alone. *)
Definition kkt_stage (numIts : Z) (met : bool) (JStatic : SparseMatrix)
  (regLarge : Vec) (m n k : Z) (s z rc rb rh : Vec)
  (sparseLDLFact : SparseLDLFactorization) : KKTStage :=
  let rmu := z in
  let rmu := DiagonalScale s rmu in
  let JOrig := JStatic in
  let JOrig := FinishKKT m n s z JOrig in
  let d := SparseKKTRHS rc rb rh rmu z in
  let J := JOrig in
  let J := UpdateDiagonal J 1 regLarge in
  let dInner := Ones (n + m + k) in
  let sparseLDLFact :=
    if (numIts =? 0)%Z && primalInit ctrl && dualInit ctrl
    then LDLInitialize J
    else ChangeNonzeroValues sparseLDLFact J in
  let sparseLDLFact := Factor sparseLDLFact in
  {| stage_JOrig := JOrig;
     stage_J := J;
     stage_fact := sparseLDLFact;
     stage_dInner := dInner;
     stage_d := d;
     stage_outcome :=
       two_stage_solve met JOrig regLarge dInner sparseLDLFact d |}.
End SparseDriver.

(** ** Backends for concrete runs

    A small dense backend over exact rationals, used to run the driver on
    concrete problems.  Matrices are lists of rows with explicit
    dimensions; [Q] is stored in full; the KKT system of the dense overload
    is assembled as in the header comment of [IPM.cpp] and solved by
    elimination.  Two routines cannot be rational and are replaced: the
    norm is the sum of the absolute values, and the equilibration scales
    each row of [A] and of [G] by its largest absolute entry and leaves the
    columns alone. *)
Module DenseExample.

Record Mat := {
  mHeight : Z;
  mWidth : Z;
  mRows : list Vec
}.

Definition vsum (v : Vec) : Real := fold_right Qplus 0 v.

Definition matvec (M : Mat) (x : Vec) : Vec :=
  map (fun row => Dot row x) (mRows M).

Definition tmatvec (M : Mat) (y : Vec) : Vec :=
  fold_right
    (fun ry acc => zipWith Qplus (Scale (snd ry) (fst ry)) acc)
    (Zeros (mWidth M)) (combine (mRows M) y).

Definition gemv (o : Orientation) (alpha : Real) (M : Mat) (x : Vec)
  (beta : Real) (y : Vec) : Vec :=
  let p := match o with NORMAL => matvec M x | TRANSPOSE => tmatvec M x end in
  zipWith (fun pi yi => alpha * pi + beta * yi) p y.

Definition rowMax (row : Vec) : Real :=
  let r := fold_right (fun v acc => Max (Abs v) acc) 0 row in
  if Qeq_bool r 0 then 1 else r.

Definition scaleRows (d : Vec) (M : Mat) : Mat :=
  {| mHeight := mHeight M; mWidth := mWidth M;
     mRows := map (fun dr => Scale (/ fst dr) (snd dr))
                  (combine d (mRows M)) |}.

Definition scaleCols (d : Vec) (M : Mat) : Mat :=
  {| mHeight := mHeight M; mWidth := mWidth M;
     mRows := map (fun row => DiagonalSolve d row) (mRows M) |}.

Definition ruiz (A G : Mat) : Mat * Mat * Vec * Vec * Vec :=
  let dRowA := map rowMax (mRows A) in
  let dRowG := map rowMax (mRows G) in
  (scaleRows dRowA A, scaleRows dRowG G, dRowA, dRowG, Ones (mWidth A)).

Definition initialize (Q A G : Mat) (b c h : Vec) (it : Iterates)
  (primalInit dualInit standardInitShift : bool) : Iterates :=
  {| it_x := if primalInit then it_x it else Zeros (mWidth A);
     it_y := if dualInit then it_y it else Zeros (mHeight A);
     it_z := if dualInit then it_z it else Ones (mHeight G);
     it_s := if primalInit then it_s it else Ones (mHeight G) |}.

Definition transpose (M : Mat) : list Vec :=
  map (fun j => map (fun row => nth j row 0) (mRows M))
      (seq 0 (Z.to_nat (mWidth M))).

(** [[Q, A^T, G^T], [A, 0, 0], [G, 0, -diag(s/z)]]. *)
Definition kkt (Q A G : Mat) (s z : Vec) : Mat :=
  let n := Z.to_nat (mWidth A) in
  let m := Z.to_nat (mHeight A) in
  let k := Z.to_nat (mHeight G) in
  let top :=
    map (fun r => fst (fst r) ++ snd (fst r) ++ snd r)
        (combine (combine (mRows Q) (transpose A)) (transpose G)) in
  let mid := map (fun row => row ++ repeat 0 (m + k)) (mRows A) in
  let diag :=
    map (fun i =>
           map (fun j => if Nat.eqb i j
                         then - (nth i s 0 / nth i z 0) else 0)
               (seq 0 k))
        (seq 0 k) in
  let bot :=
    map (fun r => fst r ++ repeat 0 m ++ snd r) (combine (mRows G) diag) in
  {| mHeight := Z.of_nat (n + m + k); mWidth := Z.of_nat (n + m + k);
     mRows := top ++ mid ++ bot |}.

(** [(-rc; -rb; -rh + rmu/z)]. *)
Definition kktrhs (rc rb rh rmu z : Vec) : Vec :=
  Scale (-1) rc ++ Scale (-1) rb ++
  zipWith Qplus (Scale (-1) rh) (DiagonalSolve z rmu).

(** Elimination on the rows [coefficients ++ [rhs]] of a square system
    in [unknowns] unknowns; [None] when no pivot is left. *)
Fixpoint pick_pivot (rows seen : list Vec) : option (Vec * list Vec) :=
  match rows with
  | [] => None
  | row :: rest =>
      if Qeq_bool (hd 0 row) 0 then pick_pivot rest (seen ++ [row])
      else Some (row, seen ++ rest)
  end.

Fixpoint eliminate (unknowns : nat) (rows : list Vec) : option Vec :=
  match unknowns with
  | O => Some []
  | S unknowns' =>
      match pick_pivot rows [] with
      | None => None
      | Some (pivot, others) =>
          let prow := Scale (/ hd 0 pivot) (tl pivot) in
          let reduced :=
            map (fun row =>
                   zipWith (fun pv rv => rv - hd 0 row * pv) prow (tl row))
                others in
          match eliminate unknowns' reduced with
          | None => None
          | Some xs =>
              let rhs := last prow 0 in
              Some ((rhs - Dot (removelast prow) xs) :: xs)
          end
      end
  end.

Definition solve (J : Mat) (d : Vec) : option Vec :=
  eliminate (length d)
    (map (fun r => fst r ++ [snd r]) (combine (mRows J) d)).

(** [dx], [dy], [dz] are the three blocks of [d] and
    [ds = -(rmu + s o dz) / z]. *)
Definition expand (m n : Z) (d rmu s z : Vec) : Vec * Vec * Vec * Vec :=
  let dx := firstn (Z.to_nat n) d in
  let dy := firstn (Z.to_nat m) (skipn (Z.to_nat n) d) in
  let dz := skipn (Z.to_nat (n + m)) d in
  let ds :=
    DiagonalSolve z (Scale (-1) (zipWith Qplus rmu (DiagonalScale s dz))) in
  (dx, dy, dz, ds).

Definition backend : DenseBackend :=
  {| Matrix := Mat;
     Height := mHeight;
     Width := mWidth;
     StackedRuizEquil := ruiz;
     DiagonalSolveMatrix :=
       fun side d M =>
         match side with LEFT => scaleRows d M | RIGHT => scaleCols d M end;
     Nrm2 := fun v => vsum (map Abs v);
     Hemv := gemv NORMAL;
     Gemv := gemv;
     Initialize := initialize;
     KKT := kkt;
     KKTRHS := kktrhs;
     Factorization := Mat;
     LDL := fun J => Some J;
     SolveAfter := solve;
     ExpandSolution := expand |}.

(** Mehrotra's rule, [(muAff/mu)^3]. *)
Definition mehrotraRule (mu muAff alphaAffPri alphaAffDual : Real) : Real :=
  (muAff / mu) * (muAff / mu) * (muAff / mu).

Definition ctrl (maxIts : Z) (outerEquil : bool) : IPMCtrl :=
  {| primalInit := true;
     dualInit := true;
     standardInitShift := true;
     outerEquil := outerEquil;
     maxIts := maxIts;
     infeasibilityTol := 1 # 100;
     relativeObjectiveGapTol := 1 # 100;
     relativeComplementarityGapTol := 1 # 100;
     minDimacsDecreaseRatio := 99 # 100;
     maxStepRatio := 99 # 100;
     forceSameStep := true;
     mehrotra := true;
     centralityRule := mehrotraRule;
     xRegSmall := 0; yRegSmall := 0; zRegSmall := 0;
     xRegLarge := 1 # 1000; yRegLarge := 1 # 1000; zRegLarge := 1 # 1000;
     twoStage := true;
     solveCtrl := {| relTol := 1 # 1000; maxRefineIts := 2;
                     progress := false |};
     twoNormKrylovBasisSize := 15 |}.

Definition mat (height width : Z) (rows : list Vec) : @Matrix backend :=
  {| mHeight := height; mWidth := width; mRows := rows |}.

(** The scalar QP of the specification: [n = 1], [m = 0], [k = 1],
    [Q = [2]], [c = [-4]], [G = [-1]], [h = [0]], whose solution is
    [x = 2] with [s = 2] and [z = 0]. *)
Definition Qm : @Matrix backend := mat 1 1 [[2]].
Definition Am : @Matrix backend := mat 0 1 [].
Definition Gm : @Matrix backend := mat 1 1 [[-1]].

Definition scalarQP (x y z s : Vec) : @CallerStore backend :=
  {| QPre := Qm;
     APre := Am;
     GPre := Gm;
     bPre := [];
     cPre := [-4];
     hPre := [0];
     iterates := {| it_x := x; it_y := y; it_z := z; it_s := s |} |}.

(** The state in which the loop is entered on the scalar QP, without
    equilibration, from the iterate [(x, y, z, s)]. *)
Definition entered (maxIts : Z) (x y z s : Vec) : @LoopState backend :=
  snd (enter_loop (ctrl maxIts false) (scalarQP x y z s)).

(** The quantities of the first iteration on the scalar QP. *)
Definition first_gaps (x y z s : Vec) : Gaps :=
  @gaps backend Qm Am Gm [] [-4] [0] 1 1 0 4 0
    {| it_x := x; it_y := y; it_z := z; it_s := s |}.

(** The convergence check of the first iteration on the scalar QP with
    [maxIts = 0]. *)
Definition first_check (ls : @LoopState backend)
  : Flow (@LoopState backend) :=
  check_convergence (ctrl 0 false) Qm Am Gm [] [-4] [0] 0 1 1 0 4 0 0 ls.

(** The first iteration on the scalar QP with [maxIts = 0]. *)
Definition first_iteration (ls : @LoopState backend)
  : Flow (@LoopState backend) :=
  iteration (ctrl 0 false) Qm Am Gm [] [-4] [0] 0 1 1 0 4 0 0 ls.

(** The solution [x = 2], [z = 0], [s = 2] of the scalar QP, and a point
    next to it. *)
Definition atSolution : @LoopState backend := entered 0 [2] [] [0] [2].
Definition nearSolution : @LoopState backend :=
  entered 0 [2] [] [1 # 1000] [2].

(** The iteration-limit error for [maxIts = 0]. *)
Definition limit0 : Exception :=
  RuntimeError
    [AStr "Maximum number of iterations ("; AInt 0;
     AStr ") exceeded without "; AStr "achieving tolerances"].


(** The same problem with the inequality written as [-2 x + s = 0]. *)
Definition scaledQP (x y z s : Vec) : @CallerStore backend :=
  {| QPre := Qm;
     APre := Am;
     GPre := mat 1 1 [[-2]];
     bPre := [];
     cPre := [-4];
     hPre := [0];
     iterates := {| it_x := x; it_y := y; it_z := z; it_s := s |} |}.
(** The Newton step of the first iteration from [x = 1], [z = 1],
    [s = 1]: the state, the residuals, the KKT matrix, the solution of the
    affine solve, the complementarity residual of the combined system and
    the solution of the combined solve. *)
Definition solved (o : option Vec) : Vec :=
  match o with
  | Some d => d
  | None => []
  end.

Definition stepState : @LoopState backend := entered 1 [1] [] [1] [1].

Definition stepGaps : Gaps := first_gaps [1] [] [1] [1].

Definition stepKKT : Mat := kkt Qm Am Gm [1] [1].

Definition stepAffine : Vec :=
  solved
    (solve stepKKT
       (kktrhs (rc stepGaps) (rb stepGaps) (rh stepGaps)
          (complementarity_residual [1] [1]) [1])).

Definition stepRmu : Vec :=
  let rmu0 := complementarity_residual [1] [1] in
  let aff := expand 0 1 stepAffine rmu0 [1] [1] in
  let dzAff := snd (fst aff) in
  let dsAff := snd aff in
  let alphaAff := affine_step_lengths (ctrl 1 false) [1] dsAff [1] dzAff in
  let muAff :=
    affine_duality_measure 1 [1] dsAff [1] dzAff
      (fst alphaAff) (snd alphaAff) in
  let sigma :=
    mehrotraRule (mu stepGaps) muAff (fst alphaAff) (snd alphaAff) in
  combined_rmu (ctrl 1 false) rmu0 sigma (mu stepGaps) dsAff dzAff.

Definition stepCombined : Vec :=
  solved
    (solve stepKKT
       (kktrhs (rc stepGaps) (rb stepGaps) (rh stepGaps) stepRmu [1])).

End DenseExample.

(** A sparse backend for concrete runs.  The norm estimates are replaced
    by the sum of the absolute values of the queued updates, which bounds
    the two-norm from above; [FinishKKT] queues [-s_i/z_i] on the last
    diagonal block; the two solvers do not refine: they hand [d] back and
    report that the tolerance was not met. *)
Module SparseExample.

Definition absSum (M : SparseMatrix) (basisSize : Z) : Real :=
  fold_right (fun u acc => Abs (snd u) + acc) 0 (sp_updates M).

Definition finishKKT (m n : Z) (s z : Vec) (J : SparseMatrix)
  : SparseMatrix :=
  {| sp_Height := sp_Height J;
     sp_Width := sp_Width J;
     sp_updates :=
       sp_updates J ++
       map (fun i => ((n + m + i)%Z, (n + m + i)%Z,
                      - (at_index s i / at_index z i)))
           (indices (Z.of_nat (length s))) |}.

Definition backend : SparseBackend :=
  {| HermitianTwoNormEstimate := absSum;
     TwoNormEstimate := absSum;
     FinishKKT := finishKKT;
     SparseKKTRHS := DenseExample.kktrhs;
     RegSolveAfter :=
       fun JOrig regLarge dInner fact d solveCtrl =>
         ({| metRequestedTol := false |}, d);
     RegularizedSolveAfter :=
       fun JOrig regLarge dInner fact d relTol maxRefineIts progress =>
         ({| metRequestedTol := false |}, d) |}.

(** The scalar QP of [DenseExample.scalarQP] in sparse storage, with the
    static part of its KKT system (no small regularisation). *)
Definition Qs : SparseMatrix :=
  {| sp_Height := 1; sp_Width := 1; sp_updates := [(0%Z, 0%Z, 2)] |}.
Definition As : SparseMatrix :=
  {| sp_Height := 0; sp_Width := 1; sp_updates := [] |}.
Definition Gs : SparseMatrix :=
  {| sp_Height := 1; sp_Width := 1; sp_updates := [(0%Z, 0%Z, -1)] |}.
Definition JStatic : SparseMatrix :=
  {| sp_Height := 2; sp_Width := 2;
     sp_updates := [(0%Z, 0%Z, 2); (0%Z, 1%Z, -1); (1%Z, 0%Z, -1)] |}.

End SparseExample.

(** ** The Frobenius norm of a Hermitian matrix

    [internal::HermitianFrobeniusNorm( uplo, A )] of
    HermitianFrobeniusNorm.hpp, the sequential overload for a real [R].
    Loop indices are naturals: they run from zero upwards and never leave
    the dimensions. *)

Module HermitianNorm.

Inductive UpperOrLower := LOWER | UPPER.

(** [Matrix<R>] as the routine reads it: [Height()], [Width()] and
    [Get(i,j)]. *)
Record Matrix := {
  Height : nat;
  Width : nat;
  Get : nat -> nat -> Real
}.

(** HermitianFrobeniusNorm.hpp lines 48-74: the two loop nests that
    accumulate [normSquared]. *)
Definition normSquared (uplo : UpperOrLower) (A : Matrix) : Real :=
  match uplo with
  | UPPER =>
      fold_left
        (fun normSquared j =>
           let normSquared :=
             fold_left
               (fun normSquared i =>
                  let alpha := Get A i j in
                  normSquared + 2 * alpha * alpha)
               (seq 0 j) normSquared in
           let alpha := Get A j j in
           normSquared + alpha * alpha)
        (seq 0 (Width A)) 0
  | LOWER =>
      fold_left
        (fun normSquared j =>
           let normSquared :=
             fold_left
               (fun normSquared i =>
                  let alpha := Get A i j in
                  normSquared + 2 * alpha * alpha)
               (seq (j + 1) (Height A - (j + 1))) normSquared in
           let alpha := Get A j j in
           normSquared + alpha * alpha)
        (seq 0 (Width A)) 0
  end.

(** Lines 38-81, the sequential overload for a real [R].  The square root
    of [R] is a parameter. *)
Definition HermitianFrobeniusNorm (sqrt : Real -> Real)
  (uplo : UpperOrLower) (A : Matrix) : Exception + Real :=
  if negb (Height A =? Width A)%nat then
    inl (LogicError [AStr "Hermitian matrices must be square."])
  else
    let norm := sqrt (normSquared uplo A) in
    inr norm.

(** The entries of the triangle [uplo] of an [n] by [n] matrix. *)
Definition in_triangle (uplo : UpperOrLower) (n i j : nat) : Prop :=
  match uplo with
  | UPPER => (i <= j < n)%nat
  | LOWER => (j <= i < n)%nat
  end.

End HermitianNorm.

(** The overload for a real [DistMatrix<R,MC,MR>]
    (HermitianFrobeniusNorm.hpp lines 129-192). *)
Module DistHermitianNorm.

(** What the routine reads of [A] on one process: the global dimensions,
    the grid, the shifts and the local block. *)
Record DistMatrix := {
  Height : nat;
  Width : nat;
  GridHeight : nat;
  GridWidth : nat;
  ColShift : nat;
  RowShift : nat;
  LocalHeight : nat;
  LocalWidth : nat;
  GetLocalEntry : nat -> nat -> Real
}.

Section Process.
(** [LocalLength( n, shift, stride )] is not among the sources: it is a
    parameter. *)
Variable LocalLength : nat -> nat -> nat -> nat.

(** Lines 140-180: the contribution of one process. *)
Definition localNormSquared (uplo : HermitianNorm.UpperOrLower)
  (A : DistMatrix) : Real :=
  let r := GridHeight A in
  let c := GridWidth A in
  let colShift := ColShift A in
  let rowShift := RowShift A in
  match uplo with
  | HermitianNorm.UPPER =>
      fold_left
        (fun localNormSquared jLocal =>
           let j := (rowShift + jLocal * c)%nat in
           let numUpperRows := LocalLength (j + 1) colShift r in
           fold_left
             (fun localNormSquared iLocal =>
                let i := (colShift + iLocal * r)%nat in
                let alpha := GetLocalEntry A iLocal jLocal in
                if negb (i =? j)%nat
                then localNormSquared + 2 * alpha * alpha
                else localNormSquared + alpha * alpha)
             (seq 0 numUpperRows) localNormSquared)
        (seq 0 (LocalWidth A)) 0
  | HermitianNorm.LOWER =>
      fold_left
        (fun localNormSquared jLocal =>
           let j := (rowShift + jLocal * c)%nat in
           let numStrictlyUpperRows := LocalLength j colShift r in
           fold_left
             (fun localNormSquared iLocal =>
                let i := (colShift + iLocal * r)%nat in
                let alpha := GetLocalEntry A iLocal jLocal in
                if negb (i =? j)%nat
                then localNormSquared + 2 * alpha * alpha
                else localNormSquared + alpha * alpha)
             (seq numStrictlyUpperRows
                  (LocalHeight A - numStrictlyUpperRows))
             localNormSquared)
        (seq 0 (LocalWidth A)) 0
  end.

(** [mpi::AllReduce( ..., mpi::SUM, A.Grid().VCComm() )] on one value:
    every process receives the sum of what the processes of the grid
    contribute, taken in the order of their ranks. *)
Definition AllReduceSum (contributions : list Real) : Real :=
  fold_left Qplus contributions 0.

(** Lines 129-192, on the process that holds [A], when [grid] lists what
    the processes of the grid hold, in the order of their ranks. *)
Definition HermitianFrobeniusNorm (sqrt : Real -> Real)
  (uplo : HermitianNorm.UpperOrLower) (grid : list DistMatrix)
  (A : DistMatrix) : Exception + Real :=
  if negb (Height A =? Width A)%nat then
    inl (LogicError [AStr "Hermitian matrices must be square."])
  else
    let normSquared := AllReduceSum (map (localNormSquared uplo) grid) in
    let norm := sqrt normSquared in
    inr norm.

(** What [LocalLength] is documented to return: the number of indices
    [shift + iLocal stride] below [n]. *)
Definition counts_local_indices : Prop :=
  forall n shift stride iLocal, (0 < stride)%nat ->
    (iLocal < LocalLength n shift stride)%nat <->
    (shift + iLocal * stride < n)%nat.

End Process.

(** Two local blocks of one shape and position in the grid that agree on
    the entries whose global position
    [(colShift + iLocal r, rowShift + jLocal c)] lies in the triangle
    [uplo]. *)
Definition same_triangle (uplo : HermitianNorm.UpperOrLower)
  (A B : DistMatrix) : Prop :=
  GridHeight A = GridHeight B /\ GridWidth A = GridWidth B /\
  ColShift A = ColShift B /\ RowShift A = RowShift B /\
  LocalHeight A = LocalHeight B /\ LocalWidth A = LocalWidth B /\
  forall iLocal jLocal,
    let i := (ColShift A + iLocal * GridHeight A)%nat in
    let j := (RowShift A + jLocal * GridWidth A)%nat in
    match uplo with
    | HermitianNorm.UPPER => (i <= j)%nat
    | HermitianNorm.LOWER => (j <= i)%nat
    end ->
    GetLocalEntry A iLocal jLocal = GetLocalEntry B iLocal jLocal.

End DistHermitianNorm.

(** Small matrices for concrete runs. *)
Module HermitianExample.

Definition of_rows (height width : nat) (rows : list (list Q))
  : HermitianNorm.Matrix :=
  {| HermitianNorm.Height := height;
     HermitianNorm.Width := width;
     HermitianNorm.Get := fun i j => nth j (nth i rows []) 0 |}.

Definition symmetric : HermitianNorm.Matrix :=
  of_rows 2 2 [[1; 2]; [2; 3]].

(** [symmetric] with its strictly lower triangle overwritten. *)
Definition upperOnly : HermitianNorm.Matrix :=
  of_rows 2 2 [[1; 2]; [7; 3]].

Definition zero : HermitianNorm.Matrix :=
  of_rows 2 2 [[0; 0]; [0; 0]].

(** The number of indices [shift + iLocal stride] below [n]. *)
Definition localLength (n shift stride : nat) : nat :=
  if (n <=? shift)%nat then 0%nat
  else ((n - shift - 1) / stride + 1)%nat.

(** What the process in grid row [p] and grid column [q] of an [r] by [c]
    grid holds of [M] when the entries are dealt out cyclically: the
    entries [(p + iLocal r, q + jLocal c)]. *)
Definition localPart (M : HermitianNorm.Matrix) (r c p q : nat)
  : DistHermitianNorm.DistMatrix :=
  {| DistHermitianNorm.Height := HermitianNorm.Height M;
     DistHermitianNorm.Width := HermitianNorm.Width M;
     DistHermitianNorm.GridHeight := r;
     DistHermitianNorm.GridWidth := c;
     DistHermitianNorm.ColShift := p;
     DistHermitianNorm.RowShift := q;
     DistHermitianNorm.LocalHeight :=
       localLength (HermitianNorm.Height M) p r;
     DistHermitianNorm.LocalWidth :=
       localLength (HermitianNorm.Width M) q c;
     DistHermitianNorm.GetLocalEntry :=
       fun iLocal jLocal =>
         HermitianNorm.Get M (p + iLocal * r) (q + jLocal * c) |}.

(** The two processes of a grid of two rows and one column. *)
Definition twoRows (M : HermitianNorm.Matrix)
  : list DistHermitianNorm.DistMatrix :=
  [localPart M 2 1 0 0; localPart M 2 1 1 0].

End HermitianExample.

(** ** Predicates on iterates *)

(** The cone the loop keeps [s] and [z] in: every entry positive. *)
Definition inside_cone (it : Iterates) : Prop :=
  (forall v, In v (it_s it) -> 0 < v) /\ (forall v, In v (it_z it) -> 0 < v).

Lemma Qlt_bool_iff (a b : Real) : Qlt_bool a b = true <-> a < b.
Proof.
  unfold Qlt_bool. rewrite negb_true_iff.
  split; intro H.
  - apply Qnot_le_lt. intro Hle. apply Qle_bool_iff in Hle. congruence.
  - destruct (Qle_bool b a) eqn:E; [|reflexivity].
    apply Qle_bool_iff in E. exfalso. exact (Qlt_not_le _ _ H E).
Qed.

Lemma Qlt_bool_false_iff (a b : Real) : Qlt_bool a b = false <-> ~ a < b.
Proof.
  rewrite <- Qlt_bool_iff. destruct (Qlt_bool a b); split; congruence.
Qed.

(** C3: the relative complementarity gap of lines 15-28 is
    [pi / (-primObj)] when [primObj < 0]; otherwise [pi / dualObj] when
    [dualObj > 0]; otherwise exactly [2]. *)
Theorem RelativeComplementarityGap_cases (primObj dualObj pi : Real) :
  (primObj < 0 ->
     RelativeComplementarityGap primObj dualObj pi = pi / - primObj) /\
  (~ primObj < 0 -> 0 < dualObj ->
     RelativeComplementarityGap primObj dualObj pi = pi / dualObj) /\
  (~ primObj < 0 -> ~ 0 < dualObj ->
     RelativeComplementarityGap primObj dualObj pi = 2).
Proof.
  unfold RelativeComplementarityGap.
  repeat split; intros.
  - apply Qlt_bool_iff in H. now rewrite H.
  - apply Qlt_bool_false_iff in H. apply Qlt_bool_iff in H0. now rewrite H, H0.
  - apply Qlt_bool_false_iff in H, H0. now rewrite H, H0.
Qed.

(** ** Order facts about [Min] and [Max] *)

Lemma Min_cases (a b : Real) :
  (Min a b = a /\ a <= b) \/ (Min a b = b /\ b <= a).
Proof.
  unfold Min. destruct (Qlt_bool b a) eqn:E.
  - right. split; [reflexivity|]. apply Qlt_le_weak. now apply Qlt_bool_iff.
  - left. split; [reflexivity|]. apply Qnot_lt_le. now apply Qlt_bool_false_iff.
Qed.

Lemma Min_le_l (a b : Real) : Min a b <= a.
Proof.
  destruct (Min_cases a b) as [[-> _]|[-> Hle]]; [apply Qle_refl|exact Hle].
Qed.

Lemma Min_le_r (a b : Real) : Min a b <= b.
Proof.
  destruct (Min_cases a b) as [[-> Hle]|[-> _]]; [exact Hle|apply Qle_refl].
Qed.

Lemma fold_left_Min_le_init (l : list Real) (a : Real) :
  fold_left Min l a <= a.
Proof.
  revert a. induction l as [|r l IH]; intro a; simpl.
  - apply Qle_refl.
  - eapply Qle_trans; [apply IH|apply Min_le_l].
Qed.

Lemma fold_left_Min_le_elem (l : list Real) (a r : Real) :
  In r l -> fold_left Min l a <= r.
Proof.
  revert a. induction l as [|r' l IH]; intros a Hin; simpl in *.
  - contradiction.
  - destruct Hin as [->|Hin].
    + eapply Qle_trans; [apply fold_left_Min_le_init|apply Min_le_r].
    + now apply IH.
Qed.

Lemma fold_left_Min_attained (l : list Real) (a : Real) :
  fold_left Min l a = a \/ In (fold_left Min l a) l.
Proof.
  revert a. induction l as [|r l IH]; intro a; simpl.
  - now left.
  - destruct (IH (Min a r)) as [Heq|Hin].
    + rewrite Heq. destruct (Min_cases a r) as [[-> _]|[-> _]]; auto.
    + right. now right.
Qed.

(** ** The ratios [MaxStep] minimises over *)

Lemma boundary_ratios_In (v dv : Vec) (r : Real) :
  In r (boundary_ratios v dv) <->
  exists i, (i < length v)%nat /\ (i < length dv)%nat /\
            nth i dv 0 < 0 /\ r = - nth i v 0 / nth i dv 0.
Proof.
  revert dv. induction v as [|vi v IH]; intros [|dvi dv]; simpl.
  1-3: split; [contradiction|intros (i & H1 & H2 & _); lia].
  destruct (Qlt_bool dvi 0) eqn:E.
  - simpl. rewrite IH. split.
    + intros [<-|(i & H1 & H2 & H3 & H4)].
      * exists 0%nat. repeat split; try lia. now apply Qlt_bool_iff.
      * exists (S i). repeat split; try lia; assumption.
    + intros ([|i] & H1 & H2 & H3 & H4).
      * left. now symmetry.
      * right. exists i. repeat split; try lia; assumption.
  - rewrite IH. split.
    + intros (i & H1 & H2 & H3 & H4).
      exists (S i). repeat split; try lia; assumption.
    + intros ([|i] & H1 & H2 & H3 & H4).
      * simpl in H3. apply Qlt_bool_false_iff in E. contradiction.
      * exists i. repeat split; try lia; assumption.
Qed.

Lemma boundary_ratios_none (v dv : Vec) :
  (forall i, (i < length dv)%nat -> ~ nth i dv 0 < 0) ->
  boundary_ratios v dv = [].
Proof.
  intro Hnone.
  destruct (boundary_ratios v dv) as [|r l] eqn:E; [reflexivity|].
  assert (Hin : In r (boundary_ratios v dv)) by (rewrite E; now left).
  apply boundary_ratios_In in Hin as (i & _ & H2 & H3 & _).
  exfalso. exact (Hnone i H2 H3).
Qed.

(** ** The cone check *)

Lemma NumOutside_nonneg (v : Vec) : (0 <= NumOutside v)%Z.
Proof. unfold NumOutside. lia. Qed.

Lemma NumOutside_pos (v : Vec) :
  (0 < NumOutside v)%Z <-> exists vi, In vi v /\ vi <= 0.
Proof.
  unfold NumOutside. split.
  - intro Hpos.
    destruct (filter (fun vi => Qle_bool vi 0) v) as [|vi l] eqn:E;
      [simpl in Hpos; lia|].
    assert (Hin : In vi (filter (fun vi => Qle_bool vi 0) v))
      by (rewrite E; now left).
    apply filter_In in Hin as [Hin Hle].
    exists vi. split; [exact Hin|now apply Qle_bool_iff].
  - intros (vi & Hin & Hle).
    assert (Hf : In vi (filter (fun vi => Qle_bool vi 0) v)).
    { apply filter_In. split; [exact Hin|now apply Qle_bool_iff]. }
    destruct (filter (fun vi => Qle_bool vi 0) v); [contradiction|simpl; lia].
Qed.

Lemma NumOutside_zero (v : Vec) :
  NumOutside v = 0%Z <-> forall vi, In vi v -> 0 < vi.
Proof.
  split.
  - intros Hz vi Hin. apply Qnot_le_lt. intro Hle.
    assert (0 < NumOutside v)%Z by (apply NumOutside_pos; eauto). lia.
  - intro Hall.
    destruct (Z.eq_dec (NumOutside v) 0) as [|Hne]; [assumption|].
    assert (Hpos : (0 < NumOutside v)%Z)
      by (pose proof (NumOutside_nonneg v); lia).
    apply NumOutside_pos in Hpos as (vi & Hin & Hle).
    exfalso. exact (Qlt_not_le _ _ (Hall vi Hin) Hle).
Qed.

(** ** Entries of the vector kernels *)

Lemma zipWith_length (f : Real -> Real -> Real) (X Y : Vec) :
  length (zipWith f X Y) = Nat.min (length X) (length Y).
Proof.
  revert Y. induction X as [|x X IH]; intros [|y Y]; simpl; auto.
Qed.

Lemma zipWith_nth (f : Real -> Real -> Real) (X Y : Vec) (i : nat) :
  (i < length X)%nat -> (i < length Y)%nat ->
  nth i (zipWith f X Y) 0 = f (nth i X 0) (nth i Y 0).
Proof.
  revert Y i. induction X as [|x X IH]; intros [|y Y] [|i]; simpl;
    intros H1 H2; try lia; auto.
  apply IH; lia.
Qed.

Lemma Shift_length (X : Vec) (alpha : Real) : length (Shift X alpha) = length X.
Proof. unfold Shift. apply length_map. Qed.

Lemma Shift_nth (X : Vec) (alpha : Real) (i : nat) :
  (i < length X)%nat -> nth i (Shift X alpha) 0 = nth i X 0 + alpha.
Proof.
  revert i. induction X as [|x X IH]; intros [|i]; simpl; intro Hi;
    try lia; auto.
  apply IH. lia.
Qed.

(** ** The dense driver *)

Section DenseProperties.
Context `{DenseBackend}.
Variable ctrl : IPMCtrl.

Lemma same_problem_data_refl (st : CallerStore) : same_problem_data st st.
Proof. repeat split. Qed.

Lemma same_problem_data_trans (st1 st2 st3 : CallerStore) :
  same_problem_data st1 st2 -> same_problem_data st2 st3 ->
  same_problem_data st1 st3.
Proof.
  unfold same_problem_data.
  intros (a1 & a2 & a3 & a4 & a5 & a6) (b1 & b2 & b3 & b4 & b5 & b6).
  repeat split; congruence.
Qed.

Lemma write_iterates_frame (it : Iterates) (st : CallerStore) :
  same_problem_data st (write_iterates it st).
Proof. repeat split. Qed.

(** The entries of [complementarity_residual] and of [combined_rmu] for
    vectors of one length. *)
Lemma combined_rmu_entries
  (s z dsAff dzAff : Vec) (sigma mu : Real) (i : nat) :
  length s = length z -> length dsAff = length z ->
  length dzAff = length z -> (i < length z)%nat ->
  let rmu0 := complementarity_residual s z in
  let rmu := combined_rmu ctrl rmu0 sigma mu dsAff dzAff in
  length rmu0 = length z /\
  nth i rmu0 0 == nth i s 0 * nth i z 0 /\
  length rmu = length z /\
  nth i rmu 0 ==
    (nth i s 0 * nth i z 0 - sigma * mu) +
    (if mehrotra ctrl then nth i dsAff 0 * nth i dzAff 0 else 0) /\
  (mehrotra ctrl = false -> rmu = Shift rmu0 (- sigma * mu)).
Proof.
  intros Hs Hds Hdz Hi rmu0 rmu.
  assert (Hlen0 : length rmu0 = length z).
  { unfold rmu0, complementarity_residual, DiagonalScale.
    rewrite zipWith_length. lia. }
  assert (Hnth0 : nth i rmu0 0 = nth i z 0 * nth i s 0).
  { unfold rmu0, complementarity_residual, DiagonalScale.
    rewrite zipWith_nth by lia. reflexivity. }
  assert (Hsh : nth i (Shift rmu0 (- sigma * mu)) 0
                = nth i z 0 * nth i s 0 + - sigma * mu).
  { rewrite Shift_nth by lia. now rewrite Hnth0. }
  split; [exact Hlen0|]. split; [rewrite Hnth0; ring|].
  unfold rmu, combined_rmu.
  destruct (mehrotra ctrl).
  - unfold AddTo, DiagonalScale.
    split; [rewrite !zipWith_length, Shift_length; lia|]. split.
    + rewrite zipWith_nth
        by (rewrite ?zipWith_length, ?Shift_length; lia).
      rewrite zipWith_nth by lia. rewrite Hsh. ring.
    + discriminate.
  - split; [rewrite Shift_length; exact Hlen0|]. split.
    + rewrite Hsh. ring.
    + reflexivity.
Qed.

Section LoopProperties.
Variables Q A G : Matrix.
Variables b c h : Vec.
Variables m k n : Z.
Variables bNrm2 cNrm2 hNrm2 : Real.

Abbreviation gaps_of it := (gaps Q A G b c h k n bNrm2 cNrm2 hNrm2 it).
Abbreviation newton := (newton_step ctrl Q A G m k n).
Abbreviation check := (check_convergence ctrl Q A G b c h m k n bNrm2 cNrm2 hNrm2).
Abbreviation iter := (iteration ctrl Q A G b c h m k n bNrm2 cNrm2 hNrm2).
Abbreviation run := (loop ctrl Q A G b c h m k n bNrm2 cNrm2 hNrm2).

(** The ways out of the Newton step: the two solver failures, which leave
    the state as it was, and the update, which is the only place where it
    writes. *)
Lemma newton_step_inv (met : bool) (g : Gaps) (ls : LoopState) :
  let f := newton met g ls in
  let failed := RuntimeError [AStr "Could not achieve tolerances"] in
  (met = true /\ f = Break ls) \/
  (met = false /\ f = Throw failed ls) \/
  f = Throw SolveException ls \/
  exists dx dy dz ds,
    let s := it_s (iterates (mem ls)) in
    let z := it_z (iterates (mem ls)) in
    let alpha := step_lengths ctrl s ds z dz in
    let ls' :=
      write_mem
        (write_iterates
           {| it_x := Axpy (fst alpha) dx (it_x (iterates (mem ls)));
              it_y := Axpy (snd alpha) dy (it_y (iterates (mem ls)));
              it_z := Axpy (snd alpha) dz z;
              it_s := Axpy (fst alpha) ds s |}
           (mem ls)) ls in
    (~ (fst alpha == 0 /\ snd alpha == 0) /\ f = Continue ls') \/
    (fst alpha == 0 /\ snd alpha == 0 /\
     ((met = true /\ f = Break ls') \/ (met = false /\ f = Throw failed ls'))).
Proof.
  unfold newton_step.
  destruct (LDL _) as [J|]; [destruct (SolveAfter J _) as [d|]|];
    try (destruct met; auto).
  all: destruct (ExpandSolution m n d _ _ _)
         as [[[dxAff dyAff] dzAff] dsAff].
  all: destruct (affine_step_lengths _ _ _ _ _)
         as [alphaAffPri alphaAffDual].
  all: destruct (SolveAfter J _) as [d'|]; [|auto].
  all: destruct (ExpandSolution m n d' _ _ _) as [[[dx dy] dz] ds].
  all: do 3 right; exists dx, dy, dz, ds; cbv zeta.
  all: destruct (step_lengths _ _ _ _ _) as [alphaPri alphaDual].
  all: cbn [fst snd].
  all: destruct (Qeq_bool alphaPri 0 && Qeq_bool alphaDual 0) eqn:Ezero.
  all: try (apply andb_true_iff in Ezero as [E1 E2];
            apply Qeq_bool_iff in E1, E2; right; auto).
  all: left; split; [|reflexivity]; intros [E1 E2].
  all: apply Qeq_bool_iff in E1, E2; rewrite E1, E2 in Ezero; discriminate.
Qed.

Lemma newton_step_writes (met : bool) (g : Gaps) (ls : LoopState) :
  flow_state (newton met g ls) = ls \/
  exists it,
    flow_state (newton met g ls) = write_mem (write_iterates it (mem ls)) ls.
Proof.
  destruct (newton_step_inv met g ls)
    as [[_ ->]|[[_ ->]|[->|(dx & dy & dz & ds & Hupd)]]];
    try (left; reflexivity).
  right. cbv zeta in Hupd.
  destruct Hupd as [[_ ->]|(_ & _ & [[_ ->]|[_ ->]])];
    eexists; reflexivity.
Qed.

Lemma newton_step_scalars (met : bool) (g : Gaps) (ls : LoopState) :
  let ls' := flow_state (newton met g ls) in
  infeasError ls' = infeasError ls /\
  dimacsError ls' = dimacsError ls /\
  dimacsErrorOld ls' = dimacsErrorOld ls.
Proof.
  destruct (newton_step_writes met g ls) as [->|(it & ->)]; repeat split.
Qed.

Lemma newton_step_frame (met : bool) (g : Gaps) (ls : LoopState) :
  same_problem_data (mem ls) (mem (flow_state (newton met g ls))).
Proof.
  destruct (newton_step_writes met g ls) as [->|(it & ->)]; repeat split.
Qed.

(** The Newton step of an iteration in which [LDL] and the affine solve
    succeed: the affine direction and its step lengths give [muAff] and
    [sigma], these give the complementarity residual of the combined
    system, and the second solve on that system gives the direction of
    the update; if the second solve throws, so does the iteration. *)
Lemma newton_step_solved (met : bool) (g : Gaps) (ls : LoopState)
  (F : Factorization) (dAff : Vec) :
  let z := it_z (iterates (mem ls)) in
  let s := it_s (iterates (mem ls)) in
  let rmu0 := complementarity_residual s z in
  let aff := ExpandSolution m n dAff rmu0 s z in
  let dzAff := snd (fst aff) in
  let dsAff := snd aff in
  let alphaAff := affine_step_lengths ctrl s dsAff z dzAff in
  let muAff :=
    affine_duality_measure k s dsAff z dzAff (fst alphaAff) (snd alphaAff) in
  let sigma :=
    centralityRule ctrl (mu g) muAff (fst alphaAff) (snd alphaAff) in
  let rmu := combined_rmu ctrl rmu0 sigma (mu g) dsAff dzAff in
  LDL (KKT Q A G s z) = Some F ->
  SolveAfter F (KKTRHS (rc g) (rb g) (rh g) rmu0 z) = Some dAff ->
  newton met g ls =
  match SolveAfter F (KKTRHS (rc g) (rb g) (rh g) rmu z) with
  | None => Throw SolveException ls
  | Some d =>
      let dir := ExpandSolution m n d rmu s z in
      take_step ctrl met ls
        (fst (fst (fst dir))) (snd (fst (fst dir))) (snd (fst dir))
        (snd dir)
  end.
Proof.
  intros z s rmu0 aff dzAff dsAff alphaAff muAff sigma rmu HLDL Haff.
  unfold newton_step. fold z s rmu0. rewrite HLDL, Haff. clear HLDL Haff.
  subst rmu sigma muAff alphaAff dsAff dzAff aff.
  destruct (ExpandSolution m n dAff rmu0 s z)
    as [[[dxAff' dyAff'] dzAff'] dsAff'].
  cbn [fst snd].
  destruct (affine_step_lengths ctrl s dsAff' z dzAff')
    as [alphaAffPri alphaAffDual].
  cbn [fst snd].
  destruct (SolveAfter F _) as [d|]; [|reflexivity].
  cbv zeta.
  destruct (ExpandSolution m n d _ s z) as [[[dx dy] dz] ds].
  cbn [fst snd]. unfold take_step. fold z s.
  destruct (step_lengths ctrl s ds z dz) as [alphaPri alphaDual].
  reflexivity.
Qed.

Lemma check_convergence_frame (numIts : Z) (ls : LoopState) :
  same_problem_data (mem ls) (mem (flow_state (check numIts ls))).
Proof.
  unfold check_convergence.
  set (g := gaps_of _). set (ls1 := record_errors g ls).
  assert (Hfr : same_problem_data (mem ls) (mem ls1)) by (repeat split).
  destruct (metTolerances ctrl g ls1);
    repeat match goal with |- context [if ?t then _ else _] => destruct t end;
    try exact Hfr;
    (eapply same_problem_data_trans; [exact Hfr|apply newton_step_frame]).
Qed.

Lemma iteration_frame (numIts : Z) (ls : LoopState) :
  same_problem_data (mem ls) (mem (flow_state (iter numIts ls))).
Proof.
  unfold iteration.
  destruct (_ || _)%bool;
    [apply same_problem_data_refl|apply check_convergence_frame].
Qed.

Lemma loop_frame (remaining : nat) (numIts : Z) (ls : LoopState) :
  same_problem_data (mem ls) (mem (snd (run remaining numIts ls))).
Proof.
  revert numIts ls. induction remaining as [|r IH]; intros numIts ls; simpl.
  - apply same_problem_data_refl.
  - pose proof (iteration_frame numIts ls) as Hfr.
    destruct (iter numIts ls) as [ls'|ls'|e ls']; simpl in *;
      try exact Hfr.
    eapply same_problem_data_trans; [exact Hfr|apply IH].
Qed.

Lemma loop_step (remaining : nat) (numIts : Z) (ls : LoopState) :
  run (S remaining) numIts ls =
  match iter numIts ls with
  | Continue ls' => run remaining (numIts + 1)%Z ls'
  | Break ls' => (Returned, ls')
  | Throw e ls' => (Raised e, ls')
  end.
Proof. reflexivity. Qed.

Lemma metTolerances_iff (g : Gaps) (ls : LoopState) :
  metTolerances ctrl g ls = true <->
  infeasError ls <= infeasibilityTol ctrl /\
  relCompGap g <= relativeComplementarityGapTol ctrl /\
  relObjGap g <= relativeObjectiveGapTol ctrl.
Proof.
  unfold metTolerances. rewrite !andb_true_iff, !Qle_bool_iff. tauto.
Qed.

Lemma cone_check_passes (numIts : Z) (ls : LoopState) :
  NumOutside (it_s (iterates (mem ls))) = 0%Z ->
  NumOutside (it_z (iterates (mem ls))) = 0%Z ->
  iter numIts ls = check numIts ls.
Proof. unfold iteration. intros -> ->. reflexivity. Qed.

Lemma check_convergence_eq (numIts : Z) (ls : LoopState) :
  let g := gaps_of (iterates (mem ls)) in
  let ls1 := record_errors g ls in
  check numIts ls =
  if metTolerances ctrl g ls1 then
    if Qle_bool (minDimacsDecreaseRatio ctrl * dimacsError ls)
                (dimacsError ls1)
    then Break ls1
    else if (numIts =? maxIts ctrl)%Z then Break ls1
         else newton (metTolerances ctrl g ls1) g ls1
  else if (numIts =? maxIts ctrl)%Z then
         Throw
           (RuntimeError
              [AStr "Maximum number of iterations ("; AInt (maxIts ctrl);
               AStr ") exceeded without "; AStr "achieving tolerances"])
           ls1
       else newton (metTolerances ctrl g ls1) g ls1.
Proof.
  cbv zeta. unfold check_convergence.
  destruct (metTolerances ctrl _ _); reflexivity.
Qed.

Lemma gate_breaks (numIts : Z) (ls : LoopState) :
  let g := gaps_of (iterates (mem ls)) in
  let ls1 := record_errors g ls in
  metTolerances ctrl g ls1 = true ->
  minDimacsDecreaseRatio ctrl * dimacsError ls <= dimacsError ls1 \/
  numIts = maxIts ctrl ->
  check numIts ls = Break ls1.
Proof.
  intros g ls1 Hm Hor. rewrite check_convergence_eq. fold g. fold ls1.
  rewrite Hm. destruct Hor as [Hst|Hlim].
  - apply Qle_bool_iff in Hst. now rewrite Hst.
  - apply Z.eqb_eq in Hlim. rewrite Hlim. now destruct (Qle_bool _ _).
Qed.

Lemma gate_throws (numIts : Z) (ls : LoopState) :
  let g := gaps_of (iterates (mem ls)) in
  let ls1 := record_errors g ls in
  metTolerances ctrl g ls1 = false ->
  numIts = maxIts ctrl ->
  check numIts ls =
  Throw
    (RuntimeError
       [AStr "Maximum number of iterations ("; AInt (maxIts ctrl);
        AStr ") exceeded without "; AStr "achieving tolerances"])
    ls1.
Proof.
  intros g ls1 Hm Hlim. rewrite check_convergence_eq. fold g. fold ls1.
  rewrite Hm. apply Z.eqb_eq in Hlim. now rewrite Hlim.
Qed.

Lemma cone_check_fails (numIts : Z) (ls : LoopState) :
  (0 < NumOutside (it_s (iterates (mem ls))) \/
   0 < NumOutside (it_z (iterates (mem ls))))%Z ->
  iter numIts ls =
  Throw
    (LogicError
       [AInt (NumOutside (it_s (iterates (mem ls))));
        AStr " entries of s were nonpositive and ";
        AInt (NumOutside (it_z (iterates (mem ls))));
        AStr " entries of z were nonpositive"])
    ls.
Proof.
  intro Hpos. unfold iteration.
  replace ((0 <? NumOutside (it_s (iterates (mem ls)))) ||
           (0 <? NumOutside (it_z (iterates (mem ls)))))%Z with true;
    [reflexivity|].
  symmetry. apply orb_true_iff.
  destruct Hpos; [left|right]; now apply Z.ltb_lt.
Qed.

(** C1, as the code has it: the convergence gate of lines 257-280 decides
    how an iteration ends once [s] and [z] have passed the cone check of
    lines 180-185.  With [met] the conjunction of the three tolerance
    tests and [stalled] the test
    [dimacsError >= minDimacsDecreaseRatio * dimacsErrorOld], where
    [dimacsErrorOld] is the DIMACS error the loop carried out of the
    previous iteration: if no entry of [s] or [z] is nonpositive, then
    with [met] and ([stalled] or [numIts = maxIts]) the loop is left and
    returns, with [met] false and [numIts = maxIts] the iteration-limit
    [RuntimeError] is thrown, and in every other case the iteration is the
    Newton step; the DIMACS error an iteration hands to the next one is the
    one it has computed.  If [s] or [z] has a nonpositive entry the
    iteration throws the [LogicError] of the cone check, whether or not
    [met] holds. *)
Theorem convergence_gate (numIts : Z) (ls : LoopState) :
  let s := it_s (iterates (mem ls)) in
  let z := it_z (iterates (mem ls)) in
  let g := gaps_of (iterates (mem ls)) in
  let ls1 := record_errors g ls in
  let met :=
    infeasError ls1 <= infeasibilityTol ctrl /\
    relCompGap g <= relativeComplementarityGapTol ctrl /\
    relObjGap g <= relativeObjectiveGapTol ctrl in
  let stalled :=
    minDimacsDecreaseRatio ctrl * dimacsError ls <= dimacsError ls1 in
  let limit :=
    RuntimeError
      [AStr "Maximum number of iterations ("; AInt (maxIts ctrl);
       AStr ") exceeded without "; AStr "achieving tolerances"] in
  let failure :=
    LogicError
      [AInt (NumOutside s); AStr " entries of s were nonpositive and ";
       AInt (NumOutside z); AStr " entries of z were nonpositive"] in
  let inside := NumOutside s = 0%Z /\ NumOutside z = 0%Z in
  (infeasError ls1 = Max (Max (rbConv g) (rcConv g)) (rhConv g) /\
   dimacsError ls1 =
     Max (infeasError ls1) (Max (relObjGap g) (relCompGap g)) /\
   dimacsErrorOld ls1 = dimacsError ls) /\
  (inside -> met -> stalled \/ numIts = maxIts ctrl ->
   iter numIts ls = Break ls1 /\
   forall remaining, run (S remaining) numIts ls = (Returned, ls1)) /\
  (inside -> ~ met -> numIts = maxIts ctrl ->
   iter numIts ls = Throw limit ls1 /\
   forall remaining, run (S remaining) numIts ls = (Raised limit, ls1)) /\
  (inside ->
   ~ (met /\ (stalled \/ numIts = maxIts ctrl)) ->
   ~ (~ met /\ numIts = maxIts ctrl) ->
   iter numIts ls = newton (metTolerances ctrl g ls1) g ls1 /\
   forall remaining,
     run (S remaining) numIts ls =
     match newton (metTolerances ctrl g ls1) g ls1 with
     | Continue ls' => run remaining (numIts + 1)%Z ls'
     | Break ls' => (Returned, ls')
     | Throw e ls' => (Raised e, ls')
     end) /\
  (forall ls', iter numIts ls = Continue ls' ->
   dimacsError ls' = dimacsError ls1) /\
  (~ inside ->
   iter numIts ls = Throw failure ls /\
   forall remaining, run (S remaining) numIts ls = (Raised failure, ls)).
Proof.
  intros s z g ls1 met stalled limit failure inside.
  assert (Hmet : metTolerances ctrl g ls1 = true <-> met)
    by (apply metTolerances_iff).
  assert (Hrun : forall f, iter numIts ls = f ->
            forall remaining,
              run (S remaining) numIts ls =
              match f with
              | Continue ls' => run remaining (numIts + 1)%Z ls'
              | Break ls' => (Returned, ls')
              | Throw e ls' => (Raised e, ls')
              end).
  { intros f Hf remaining. now rewrite loop_step, Hf. }
  pose proof (check_convergence_eq numIts ls) as Hcheck.
  cbv zeta in Hcheck. fold g in Hcheck. fold ls1 in Hcheck.
  fold limit in Hcheck.
  split; [repeat split|].
  split; [|split; [|split; [|split]]].
  - intros [Hs Hz] Hm Hor.
    assert (Hit : iter numIts ls = Break ls1).
    { rewrite cone_check_passes by assumption.
      apply gate_breaks; [now apply Hmet|exact Hor]. }
    split; [exact Hit|]. intro remaining. exact (Hrun _ Hit remaining).
  - intros [Hs Hz] Hnm Hlim.
    assert (Hit : iter numIts ls = Throw limit ls1).
    { rewrite cone_check_passes by assumption.
      apply gate_throws; [|exact Hlim].
      fold g. fold ls1. destruct (metTolerances ctrl g ls1); [|reflexivity].
      exfalso. apply Hnm. now apply Hmet. }
    split; [exact Hit|]. intro remaining. exact (Hrun _ Hit remaining).
  - intros [Hs Hz] Hn1 Hn2.
    assert (Hit : iter numIts ls = newton (metTolerances ctrl g ls1) g ls1).
    { rewrite cone_check_passes by assumption. rewrite Hcheck.
      destruct (metTolerances ctrl g ls1) eqn:Em.
      - destruct (Qle_bool _ _) eqn:Es.
        + exfalso. apply Hn1.
          split; [now apply Hmet|left; now apply Qle_bool_iff].
        + destruct (Z.eqb_spec numIts (maxIts ctrl)) as [Hl|Hl];
            [|reflexivity].
          exfalso. apply Hn1. split; [now apply Hmet|now right].
      - destruct (Z.eqb_spec numIts (maxIts ctrl)) as [Hl|Hl];
          [|reflexivity].
        exfalso. apply Hn2. split; [|exact Hl].
        intro Hm. apply Hmet in Hm. discriminate. }
    split; [exact Hit|]. intro remaining. exact (Hrun _ Hit remaining).
  - intros ls' Hc.
    assert (Hcheck' : check numIts ls = Continue ls').
    { unfold iteration in Hc. fold s z in Hc.
      destruct ((0 <? NumOutside s) || (0 <? NumOutside z))%Z;
        [discriminate Hc|exact Hc]. }
    rewrite Hcheck in Hcheck'.
    assert (Hn : forall f, f = Continue ls' ->
                 f = newton (metTolerances ctrl g ls1) g ls1 ->
                 dimacsError ls' = dimacsError ls1).
    { intros f Hf Hnew.
      pose proof (newton_step_scalars (metTolerances ctrl g ls1) g ls1)
        as (_ & Hd & _).
      rewrite <- Hnew, Hf in Hd. exact Hd. }
    destruct (metTolerances ctrl g ls1) eqn:Em;
      repeat match type of Hcheck' with
             | (if ?t then _ else _) = _ => destruct t
             end;
      try discriminate Hcheck'; now apply (Hn _ Hcheck').
  - intro Hout.
    assert (Hpos : (0 < NumOutside s \/ 0 < NumOutside z)%Z).
    { pose proof (NumOutside_nonneg s). pose proof (NumOutside_nonneg z).
      unfold inside in Hout. lia. }
    assert (Hit : iter numIts ls = Throw failure ls)
      by (now apply cone_check_fails).
    split; [exact Hit|]. intro remaining. exact (Hrun _ Hit remaining).
Qed.

(** C5: the cone check of lines 180-185.  If [s] or [z] has a nonpositive
    entry the iteration throws the [LogicError] whose message carries the
    two counts [NumOutside s] and [NumOutside z], one of which is positive,
    and the loop is left with the state, hence the iterates, as the
    iteration found them; if no entry of [s] or [z] is nonpositive both
    counts are zero and the iteration goes on to the convergence check. *)
Theorem cone_check (numIts : Z) (ls : LoopState) :
  let s := it_s (iterates (mem ls)) in
  let z := it_z (iterates (mem ls)) in
  let failure :=
    LogicError
      [AInt (NumOutside s); AStr " entries of s were nonpositive and ";
       AInt (NumOutside z); AStr " entries of z were nonpositive"] in
  ((exists v, In v s /\ v <= 0) \/ (exists v, In v z /\ v <= 0) ->
   (0 < NumOutside s \/ 0 < NumOutside z)%Z /\
   iter numIts ls = Throw failure ls /\
   forall remaining, run (S remaining) numIts ls = (Raised failure, ls)) /\
  ((forall v, In v s -> 0 < v) /\ (forall v, In v z -> 0 < v) ->
   NumOutside s = 0%Z /\ NumOutside z = 0%Z /\
   iter numIts ls = check numIts ls).
Proof.
  intros s z failure. split.
  - intro Hex.
    assert (Hpos : (0 < NumOutside s \/ 0 < NumOutside z)%Z).
    { destruct Hex as [Hex|Hex]; [left|right]; now apply NumOutside_pos. }
    assert (Hit : iter numIts ls = Throw failure ls)
      by (now apply cone_check_fails).
    repeat split; try assumption.
    intro remaining. now rewrite loop_step, Hit.
  - intros [Hs Hz].
    apply NumOutside_zero in Hs, Hz.
    repeat split; try assumption.
    now apply cone_check_passes.
Qed.

(** C4: the step lengths of lines 388-393.  With [eta = maxStepRatio],
    [alphaPri = min(eta * MaxStep(s, ds, 1/eta), 1)] and
    [alphaDual = min(eta * MaxStep(z, dz, 1/eta), 1)], both replaced by
    their minimum under [forceSameStep].  [MaxStep(v, dv, a)] is the
    minimum of [a] and of the ratios [-v_i / dv_i] over the indices with
    [dv_i < 0]: it is below [a] and below each ratio, it is [a] or one of
    the ratios, and it is [a] when no [dv_i] is negative.  An iteration
    whose solves succeed computes these step lengths from the current [s]
    and [z] and from the [ds] and [dz] of the combined direction, and
    updates [x] and [s] by [alphaPri] and [y] and [z] by [alphaDual]
    times that direction; it goes on to the next iteration unless both
    step lengths are zero. *)
Theorem final_step_lengths (met : bool) (g : Gaps) (ls : LoopState)
  (F : Factorization) (dAff d : Vec) :
  let eta := maxStepRatio ctrl in
  let x := it_x (iterates (mem ls)) in
  let y := it_y (iterates (mem ls)) in
  let z := it_z (iterates (mem ls)) in
  let s := it_s (iterates (mem ls)) in
  let rmu0 := complementarity_residual s z in
  let aff := ExpandSolution m n dAff rmu0 s z in
  let dzAff := snd (fst aff) in
  let dsAff := snd aff in
  let alphaAff := affine_step_lengths ctrl s dsAff z dzAff in
  let muAff :=
    affine_duality_measure k s dsAff z dzAff (fst alphaAff) (snd alphaAff) in
  let sigma :=
    centralityRule ctrl (mu g) muAff (fst alphaAff) (snd alphaAff) in
  let rmu := combined_rmu ctrl rmu0 sigma (mu g) dsAff dzAff in
  let dir := ExpandSolution m n d rmu s z in
  let dx := fst (fst (fst dir)) in
  let dy := snd (fst (fst dir)) in
  let dz := snd (fst dir) in
  let ds := snd dir in
  let alphaPri0 := Min (eta * MaxStep s ds (1 / eta)) 1 in
  let alphaDual0 := Min (eta * MaxStep z dz (1 / eta)) 1 in
  let alphaPri :=
    if forceSameStep ctrl then Min alphaPri0 alphaDual0 else alphaPri0 in
  let alphaDual :=
    if forceSameStep ctrl then Min alphaPri0 alphaDual0 else alphaDual0 in
  let ls' :=
    write_mem
      (write_iterates
         {| it_x := Axpy alphaPri dx x;
            it_y := Axpy alphaDual dy y;
            it_z := Axpy alphaDual dz z;
            it_s := Axpy alphaPri ds s |}
         (mem ls)) ls in
  (forall v dv w dw : Vec,
     step_lengths ctrl v dv w dw =
     let aPri := Min (eta * MaxStep v dv (1 / eta)) 1 in
     let aDual := Min (eta * MaxStep w dw (1 / eta)) 1 in
     if forceSameStep ctrl
     then (Min aPri aDual, Min aPri aDual)
     else (aPri, aDual)) /\
  (forall (v dv : Vec) (ahat : Real),
     MaxStep v dv ahat <= ahat /\
     (forall i, (i < length v)%nat -> (i < length dv)%nat ->
                nth i dv 0 < 0 ->
                MaxStep v dv ahat <= - nth i v 0 / nth i dv 0) /\
     (MaxStep v dv ahat = ahat \/
      exists i, (i < length v)%nat /\ (i < length dv)%nat /\
                nth i dv 0 < 0 /\
                MaxStep v dv ahat = - nth i v 0 / nth i dv 0) /\
     ((forall i, (i < length dv)%nat -> ~ nth i dv 0 < 0) ->
      MaxStep v dv ahat = ahat)) /\
  (LDL (KKT Q A G s z) = Some F ->
   SolveAfter F (KKTRHS (rc g) (rb g) (rh g) rmu0 z) = Some dAff ->
   SolveAfter F (KKTRHS (rc g) (rb g) (rh g) rmu z) = Some d ->
   newton met g ls =
   if Qeq_bool alphaPri 0 && Qeq_bool alphaDual 0 then
     if met then Break ls'
     else Throw (RuntimeError [AStr "Could not achieve tolerances"]) ls'
   else Continue ls').
Proof.
  intros eta x y z s rmu0 aff dzAff dsAff alphaAff muAff sigma rmu dir
         dx dy dz ds alphaPri0 alphaDual0 alphaPri alphaDual ls'.
  split; [reflexivity|]. split.
  - intros v dv ahat. unfold MaxStep. repeat split.
    + apply fold_left_Min_le_init.
    + intros i Hv Hdv Hneg. apply fold_left_Min_le_elem.
      apply boundary_ratios_In. exists i. repeat split; assumption.
    + destruct (fold_left_Min_attained (boundary_ratios v dv) ahat)
        as [Heq|Hin]; [now left|right].
      apply boundary_ratios_In in Hin. exact Hin.
    + intro Hnone. now rewrite boundary_ratios_none.
  - intros HLDL Haff Hsolve.
    rewrite (newton_step_solved met g ls F dAff HLDL Haff).
    fold z s rmu0 aff dzAff dsAff alphaAff muAff sigma rmu.
    rewrite Hsolve. cbv zeta. fold dir dx dy dz ds.
    unfold take_step, step_lengths. fold x y z s eta.
    fold alphaPri0 alphaDual0.
    unfold ls', alphaPri, alphaDual.
    destruct (forceSameStep ctrl); reflexivity.
Qed.


Lemma check_convergence_throws (numIts : Z) (ls ls' : LoopState)
  (e : Exception) :
  check numIts ls = Throw e ls' -> driver_exception ctrl e.
Proof.
  unfold check_convergence, driver_exception.
  set (g := gaps_of _). set (ls1 := record_errors g ls).
  assert (Hn : forall met, newton met g ls1 = Throw e ls' ->
               e = RuntimeError [AStr "Could not achieve tolerances"] \/
               e = SolveException).
  { intros met Hthrow.
    destruct (newton_step_inv met g ls1)
      as [[_ Hf]|[[_ Hf]|[Hf|(dx & dy & dz & ds & Hupd)]]];
      try (rewrite Hf in Hthrow; inversion Hthrow; auto; fail).
    cbv zeta in Hupd.
    destruct Hupd as [[_ Hf]|(_ & _ & [[_ Hf]|[_ Hf]])];
      rewrite Hf in Hthrow; inversion Hthrow; auto. }
  destruct (metTolerances ctrl g ls1);
    repeat match goal with
           | |- context [if ?t then _ else _] => destruct t
           end;
    intro Hthrow; try discriminate Hthrow;
    try (apply Hn in Hthrow; tauto).
  inversion Hthrow. auto.
Qed.

Lemma iteration_throws (numIts : Z) (ls ls' : LoopState) (e : Exception) :
  iter numIts ls = Throw e ls' -> driver_exception ctrl e.
Proof.
  unfold iteration.
  destruct (_ || _)%bool eqn:Ecount.
  - intro Hthrow. injection Hthrow as <- _. left.
    apply orb_true_iff in Ecount. rewrite !Z.ltb_lt in Ecount.
    do 2 eexists. split; [exact Ecount|reflexivity].
  - apply check_convergence_throws.
Qed.

Lemma loop_raises (remaining : nat) (numIts : Z) (ls : LoopState)
  (e : Exception) :
  fst (run remaining numIts ls) = Raised e -> driver_exception ctrl e.
Proof.
  revert numIts ls. induction remaining as [|r IH]; intros numIts ls.
  - discriminate.
  - rewrite loop_step.
    destruct (iter numIts ls) as [ls'|ls'|e' ls'] eqn:Eit; simpl.
    + apply IH.
    + discriminate.
    + intro Hr. injection Hr as <-. eapply iteration_throws. exact Eit.
Qed.

(** C7: the complementarity residual of the combined solve.  In an
    iteration whose factorisation and affine solve succeed, [rmu] is first
    [s o z] (lines 285-288); with all four vectors of one length, what
    lines 368-377 hand to [KKTRHS] has the entries [s_i z_i - sigma mu],
    to which [dsAff_i dzAff_i] is added when [ctrl.mehrotra] is set and
    nothing when it is not; and the combined solve of the iteration is the
    one on the right-hand side built from this [rmu], whose solution is
    the direction of the update. *)
Theorem combined_complementarity_residual (met : bool) (g : Gaps)
  (ls : LoopState) (F : Factorization) (dAff : Vec) :
  let z := it_z (iterates (mem ls)) in
  let s := it_s (iterates (mem ls)) in
  let rmu0 := complementarity_residual s z in
  let aff := ExpandSolution m n dAff rmu0 s z in
  let dzAff := snd (fst aff) in
  let dsAff := snd aff in
  let alphaAff := affine_step_lengths ctrl s dsAff z dzAff in
  let muAff :=
    affine_duality_measure k s dsAff z dzAff (fst alphaAff) (snd alphaAff) in
  let sigma :=
    centralityRule ctrl (mu g) muAff (fst alphaAff) (snd alphaAff) in
  let rmu := combined_rmu ctrl rmu0 sigma (mu g) dsAff dzAff in
  LDL (KKT Q A G s z) = Some F ->
  SolveAfter F (KKTRHS (rc g) (rb g) (rh g) rmu0 z) = Some dAff ->
  length s = length z -> length dsAff = length z ->
  length dzAff = length z ->
  (length rmu0 = length z /\
   forall i, (i < length z)%nat ->
             nth i rmu0 0 == nth i s 0 * nth i z 0) /\
  (length rmu = length z /\
   forall i, (i < length z)%nat ->
             nth i rmu 0 ==
             (nth i s 0 * nth i z 0 - sigma * mu g) +
             (if mehrotra ctrl then nth i dsAff 0 * nth i dzAff 0 else 0)) /\
  (mehrotra ctrl = false -> rmu = Shift rmu0 (- sigma * mu g)) /\
  newton met g ls =
  match SolveAfter F (KKTRHS (rc g) (rb g) (rh g) rmu z) with
  | None => Throw SolveException ls
  | Some d =>
      let dir := ExpandSolution m n d rmu s z in
      take_step ctrl met ls
        (fst (fst (fst dir))) (snd (fst (fst dir))) (snd (fst dir))
        (snd dir)
  end.
Proof.
  intros z s rmu0 aff dzAff dsAff alphaAff muAff sigma rmu
         HLDL Haff Hs Hds Hdz.
  assert (Hlen0 : length rmu0 = length z).
  { unfold rmu0, complementarity_residual, DiagonalScale.
    rewrite zipWith_length. lia. }
  assert (Hlen : length rmu = length z).
  { unfold rmu, combined_rmu. destruct (mehrotra ctrl).
    - unfold AddTo, DiagonalScale.
      rewrite !zipWith_length, Shift_length. lia.
    - rewrite Shift_length. exact Hlen0. }
  split; [split; [exact Hlen0|]|split; [split; [exact Hlen|]|split]].
  - intros i Hi.
    exact (proj1 (proj2 (combined_rmu_entries s z dsAff dzAff sigma (mu g)
                           i Hs Hds Hdz Hi))).
  - intros i Hi.
    exact (proj1 (proj2 (proj2 (proj2
             (combined_rmu_entries s z dsAff dzAff sigma (mu g)
                i Hs Hds Hdz Hi))))).
  - intro Hoff. unfold rmu, combined_rmu. now rewrite Hoff.
  - exact (newton_step_solved met g ls F dAff HLDL Haff).
Qed.

End LoopProperties.

Lemma equilibrate_frame (st : CallerStore) :
  same_problem_data st (snd (equilibrate ctrl st)).
Proof.
  unfold equilibrate.
  destruct (outerEquil ctrl); [|apply same_problem_data_refl].
  destruct (StackedRuizEquil _ _) as [[[[A' G'] dA] dG] dC].
  repeat split.
Qed.

Lemma enter_loop_frame (st : CallerStore) :
  same_problem_data st (mem (snd (enter_loop ctrl st))).
Proof.
  unfold enter_loop.
  pose proof (equilibrate_frame st) as Hfr.
  destruct (equilibrate ctrl st) as [loc st1]. simpl in *.
  eapply same_problem_data_trans; [exact Hfr|apply write_iterates_frame].
Qed.

Lemma IPM_unfold (st : CallerStore) :
  IPM ctrl st =
  let loc := fst (enter_loop ctrl st) in
  let out := run_loop ctrl loc (snd (enter_loop ctrl st)) in
  match fst out with
  | Raised e => (Raised e, mem (snd out))
  | Returned =>
      if outerEquil ctrl then
        (Returned,
         write_iterates
           (unscale (dRowA loc) (dRowG loc) (dCol loc)
                    (iterates (mem (snd out))))
           (mem (snd out)))
      else (Returned, mem (snd out))
  end.
Proof.
  unfold IPM. destruct (enter_loop ctrl st) as [loc ls]. cbn [fst snd].
  cbv zeta. destruct (run_loop ctrl loc ls) as [[|e] ls']; reflexivity.
Qed.

(** C8: whatever the call does, the caller's [Q], [A], [G], [b], [c] and
    [h] are afterwards what they were before; the driver equilibrates and
    assembles on its copies and writes through [x], [y], [z] and [s]
    only. *)
Theorem problem_data_unchanged (st : CallerStore) :
  let st' := snd (IPM ctrl st) in
  QPre st' = QPre st /\ APre st' = APre st /\ GPre st' = GPre st /\
  bPre st' = bPre st /\ cPre st' = cPre st /\ hPre st' = hPre st.
Proof.
  cbv zeta. change (same_problem_data st (snd (IPM ctrl st))).
  rewrite IPM_unfold. cbv zeta.
  set (loc := fst (enter_loop ctrl st)).
  set (ls := snd (enter_loop ctrl st)).
  assert (Hloop : same_problem_data st (mem (snd (run_loop ctrl loc ls)))).
  { eapply same_problem_data_trans; [apply enter_loop_frame|].
    unfold run_loop. apply loop_frame. }
  destruct (fst (run_loop ctrl loc ls)); [destruct (outerEquil ctrl)|];
    cbn [snd]; exact Hloop.
Qed.

(** C9: under [outerEquil], a call that ends in an exception hands back
    the iterates as the loop left them, in the coordinates of the
    equilibrated problem; the scalings [dCol], [dRowA], [dRowG] are undone
    only when the loop is left without an exception.  The exceptions are
    the [LogicError] of the cone check, the iteration-limit
    [RuntimeError], the [RuntimeError] of a failed solve or of a zero step
    with the tolerances unmet, and what the second solve throws. *)
Theorem error_exit_keeps_scaled_iterates (st : CallerStore) :
  outerEquil ctrl = true ->
  let loc := fst (enter_loop ctrl st) in
  let out := run_loop ctrl loc (snd (enter_loop ctrl st)) in
  (forall e, fst out = Raised e ->
     IPM ctrl st = (Raised e, mem (snd out)) /\ driver_exception ctrl e) /\
  (fst out = Returned ->
     IPM ctrl st =
       (Returned,
        write_iterates
          (unscale (dRowA loc) (dRowG loc) (dCol loc)
                   (iterates (mem (snd out))))
          (mem (snd out)))) /\
  (forall e st', IPM ctrl st = (Raised e, st') ->
     fst out = Raised e /\ st' = mem (snd out)).
Proof.
  intros Hequil loc out.
  pose proof (IPM_unfold st) as HIPM. cbv zeta in HIPM.
  fold loc in HIPM. fold out in HIPM. rewrite Hequil in HIPM.
  split; [|split].
  - intros e He. rewrite He in HIPM. split; [exact HIPM|].
    unfold out, run_loop in He. eapply loop_raises. exact He.
  - intro Hr. now rewrite Hr in HIPM.
  - intros e st' Hraised. rewrite Hraised in HIPM.
    destruct (fst out); [discriminate HIPM|].
    injection HIPM as -> ->. split; reflexivity.
Qed.

Lemma positive_dec (s z : Vec) :
  ~ ((forall v, In v s -> 0 < v) /\ (forall v, In v z -> 0 < v)) ->
  (0 < NumOutside s \/ 0 < NumOutside z)%Z.
Proof.
  intro Hnot.
  destruct (Z.eq_dec (NumOutside s) 0) as [Hs|Hs];
    [|left; pose proof (NumOutside_nonneg s); lia].
  destruct (Z.eq_dec (NumOutside z) 0) as [Hz|Hz];
    [|right; pose proof (NumOutside_nonneg z); lia].
  exfalso. apply Hnot. split; now apply NumOutside_zero.
Qed.

(** C2, as the code has it: with [maxIts = 0] the loop body runs once, on
    the iterate the loop is entered with (the caller's, after the
    equilibration scaling, when both init flags are set), and takes no
    Newton step, so the loop leaves the iterates as it found them.  If
    every entry of [s] and [z] is positive, the call returns when the three
    tolerances are met and throws the iteration-limit [RuntimeError], which
    names the limit, when they are not.  If [s] or [z] has a nonpositive
    entry the call throws the [LogicError] of the cone check, whether or
    not the tolerances are met. *)
Theorem maxIts_zero (st : CallerStore) :
  maxIts ctrl = 0%Z ->
  let loc := fst (enter_loop ctrl st) in
  let ls0 := snd (enter_loop ctrl st) in
  let s := it_s (iterates (mem ls0)) in
  let z := it_z (iterates (mem ls0)) in
  let g :=
    gaps (loc_Q loc) (loc_A loc) (loc_G loc)
         (loc_b loc) (loc_c loc) (loc_h loc) (loc_k loc) (loc_n loc)
         (Nrm2 (loc_b loc)) (Nrm2 (loc_c loc)) (Nrm2 (loc_h loc))
         (iterates (mem ls0)) in
  let ls1 := record_errors g ls0 in
  let met :=
    infeasError ls1 <= infeasibilityTol ctrl /\
    relCompGap g <= relativeComplementarityGapTol ctrl /\
    relObjGap g <= relativeObjectiveGapTol ctrl in
  let positive :=
    (forall v, In v s -> 0 < v) /\ (forall v, In v z -> 0 < v) in
  let limit :=
    RuntimeError
      [AStr "Maximum number of iterations ("; AInt 0;
       AStr ") exceeded without "; AStr "achieving tolerances"] in
  let failure :=
    LogicError
      [AInt (NumOutside s); AStr " entries of s were nonpositive and ";
       AInt (NumOutside z); AStr " entries of z were nonpositive"] in
  run_loop ctrl loc ls0 =
    match iteration ctrl (loc_Q loc) (loc_A loc) (loc_G loc)
            (loc_b loc) (loc_c loc) (loc_h loc)
            (loc_m loc) (loc_k loc) (loc_n loc)
            (Nrm2 (loc_b loc)) (Nrm2 (loc_c loc)) (Nrm2 (loc_h loc))
            0 ls0 with
    | Continue ls' | Break ls' => (Returned, ls')
    | Throw e ls' => (Raised e, ls')
    end /\
  iterates (mem (snd (run_loop ctrl loc ls0))) = iterates (mem ls0) /\
  (positive -> met ->
   run_loop ctrl loc ls0 = (Returned, ls1) /\
   fst (IPM ctrl st) = Returned) /\
  (positive -> ~ met -> IPM ctrl st = (Raised limit, mem ls1)) /\
  (positive -> fst (IPM ctrl st) = Returned -> met) /\
  (~ positive -> IPM ctrl st = (Raised failure, mem ls0)).
Proof.
  intros Hmax loc ls0 s z g ls1 met positive limit failure.
  assert (Hrun : run_loop ctrl loc ls0 =
                 match iteration ctrl (loc_Q loc) (loc_A loc) (loc_G loc)
                         (loc_b loc) (loc_c loc) (loc_h loc)
                         (loc_m loc) (loc_k loc) (loc_n loc)
                         (Nrm2 (loc_b loc)) (Nrm2 (loc_c loc))
                         (Nrm2 (loc_h loc)) 0 ls0 with
                 | Continue ls' => (Returned, ls')
                 | Break ls' => (Returned, ls')
                 | Throw e ls' => (Raised e, ls')
                 end).
  { unfold run_loop. rewrite Hmax. simpl.
    now destruct (iteration _ _ _ _ _ _ _ _ _ _ _ _ _ _ _). }
  assert (Hmet : metTolerances ctrl g ls1 = true <-> met)
    by (apply metTolerances_iff).
  assert (Hpos : positive ->
                 iteration ctrl (loc_Q loc) (loc_A loc) (loc_G loc)
                   (loc_b loc) (loc_c loc) (loc_h loc)
                   (loc_m loc) (loc_k loc) (loc_n loc)
                   (Nrm2 (loc_b loc)) (Nrm2 (loc_c loc))
                   (Nrm2 (loc_h loc)) 0 ls0 =
                 if metTolerances ctrl g ls1 then Break ls1
                 else Throw limit ls1).
  { intros [Hs Hz]. apply NumOutside_zero in Hs, Hz.
    rewrite cone_check_passes by assumption.
    destruct (metTolerances ctrl g ls1) eqn:Em.
    - apply gate_breaks; [exact Em|right; now rewrite Hmax].
    - unfold limit. rewrite <- Hmax.
      apply gate_throws; [exact Em|now rewrite Hmax]. }
  assert (Hneg : ~ positive ->
                 iteration ctrl (loc_Q loc) (loc_A loc) (loc_G loc)
                   (loc_b loc) (loc_c loc) (loc_h loc)
                   (loc_m loc) (loc_k loc) (loc_n loc)
                   (Nrm2 (loc_b loc)) (Nrm2 (loc_c loc))
                   (Nrm2 (loc_h loc)) 0 ls0 =
                 Throw failure ls0).
  { intro Hnot. apply cone_check_fails. now apply positive_dec. }
  pose proof (IPM_unfold st) as HIPM. cbv zeta in HIPM.
  fold loc in HIPM. fold ls0 in HIPM.
  assert (Hkept :
            iterates (mem (snd (run_loop ctrl loc ls0))) = iterates (mem ls0)).
  { destruct (Z.eq_dec (NumOutside s) 0) as [Hs|Hs].
    - destruct (Z.eq_dec (NumOutside z) 0) as [Hz|Hz].
      + rewrite Hrun, Hpos by (split; now apply NumOutside_zero).
        now destruct (metTolerances ctrl g ls1).
      + rewrite Hrun, cone_check_fails; [reflexivity|].
        right. pose proof (NumOutside_nonneg z). fold z. lia.
    - rewrite Hrun, cone_check_fails; [reflexivity|].
      left. pose proof (NumOutside_nonneg s). fold s. lia. }
  split; [exact Hrun|]. split; [exact Hkept|].
  split; [|split; [|split]].
  - intros Hp Hm. apply Hmet in Hm.
    rewrite Hpos, Hm in Hrun by exact Hp.
    split; [exact Hrun|].
    rewrite HIPM, Hrun. cbn [fst]. now destruct (outerEquil ctrl).
  - intros Hp Hnm.
    assert (Hm : metTolerances ctrl g ls1 = false).
    { destruct (metTolerances ctrl g ls1); [|reflexivity].
      exfalso. apply Hnm. now apply Hmet. }
    rewrite Hpos, Hm in Hrun by exact Hp.
    rewrite HIPM, Hrun. reflexivity.
  - intros Hp Hret. apply Hmet.
    destruct (metTolerances ctrl g ls1) eqn:Em; [reflexivity|].
    rewrite (Hpos Hp) in Hrun.
    rewrite HIPM, Hrun in Hret. discriminate Hret.
  - intro Hnp. rewrite Hneg in Hrun by exact Hnp.
    rewrite HIPM, Hrun. reflexivity.
Qed.

End DenseProperties.

(** ** The sparse overload *)

Lemma at_index_map_indices (f : Z -> Real) (len i : Z) :
  (0 <= i < len)%Z -> at_index (map f (indices len)) i = f i.
Proof.
  intro Hi. unfold at_index, indices. rewrite map_map.
  rewrite (nth_indep _ 0 (f (Z.of_nat 0)))
    by (rewrite length_map, length_seq; lia).
  rewrite (map_nth (fun a => f (Z.of_nat a))).
  rewrite seq_nth by lia. f_equal. lia.
Qed.

Lemma at_index_Scale (alpha : Real) (v : Vec) (i : Z) :
  (Z.to_nat i < length v)%nat ->
  at_index (Scale alpha v) i = at_index v i * alpha.
Proof.
  intro Hi. unfold at_index, Scale.
  rewrite (nth_indep _ 0 (0 * alpha)) by (rewrite length_map; exact Hi).
  apply (map_nth (fun v => v * alpha)).
Qed.

Lemma indices_length (len : Z) : length (indices len) = Z.to_nat len.
Proof. unfold indices. now rewrite length_map, length_seq. Qed.

Lemma sum_at_app (i j : Z) (U D : list (Z * Z * Real)) :
  sum_at i j (U ++ D) == sum_at i j U + sum_at i j D.
Proof.
  induction U as [|[[i' j'] v] U IH]; simpl.
  - ring.
  - destruct ((i' =? i) && (j' =? j))%Z; rewrite IH; ring.
Qed.

Lemma sum_at_diagonal (f : Z -> Real) (i j : Z) (first count : nat) :
  sum_at i j
    (map (fun a => (a, a, f a)) (map Z.of_nat (seq first count))) ==
  if ((i =? j) && (Z.of_nat first <=? i) &&
      (i <? Z.of_nat first + Z.of_nat count))%Z
  then f i else 0.
Proof.
  revert first. induction count as [|count IH]; intro first.
  - simpl.
    destruct (i =? j)%Z, (Z.of_nat first <=? i)%Z eqn:E1,
             (i <? Z.of_nat first + 0)%Z eqn:E2; simpl; try reflexivity.
    apply Z.leb_le in E1. apply Z.ltb_lt in E2. lia.
  - cbn [seq map sum_at fold_right]. fold (sum_at i j).
    pose proof (IH (S first)) as IHs.
    destruct (Z.eqb_spec (Z.of_nat first) i) as [Hfi|Hfi];
      destruct (Z.eqb_spec (Z.of_nat first) j) as [Hfj|Hfj];
      destruct (Z.eqb_spec i j) as [Hij|Hij];
      destruct (Z.leb_spec (Z.of_nat first) i);
      destruct (Z.leb_spec (Z.of_nat (S first)) i);
      destruct (Z.ltb_spec i (Z.of_nat first + Z.of_nat (S count)));
      destruct (Z.ltb_spec i (Z.of_nat (S first) + Z.of_nat count));
      cbn [andb] in *; try lia; rewrite ?IHs; try reflexivity;
      subst; ring.
Qed.

Lemma entry_UpdateDiagonal (M : SparseMatrix) (alpha : Real) (d : Vec)
  (i j : Z) :
  entry (UpdateDiagonal M alpha d) i j ==
  entry M i j +
  (if ((i =? j) && (0 <=? i) &&
       (i <? Z.min (sp_Height M) (sp_Width M)))%Z
   then alpha * at_index d i else 0).
Proof.
  unfold entry, UpdateDiagonal. cbn [sp_updates].
  rewrite sum_at_app. apply Qplus_comp; [reflexivity|].
  unfold indices.
  rewrite (sum_at_diagonal (fun a => alpha * at_index d a)).
  set (len := Z.min (sp_Height M) (sp_Width M)).
  replace ((i =? j) && (Z.of_nat 0 <=? i) &&
           (i <? Z.of_nat 0 + Z.of_nat (Z.to_nat len)))%Z
    with ((i =? j) && (0 <=? i) && (i <? len))%Z; [reflexivity|].
  destruct (i =? j)%Z; [|reflexivity]. cbn [andb].
  destruct (Z.leb_spec 0 i), (Z.leb_spec (Z.of_nat 0) i),
    (Z.ltb_spec i len),
    (Z.ltb_spec i (Z.of_nat 0 + Z.of_nat (Z.to_nat len)));
    cbn [andb]; try reflexivity; lia.
Qed.

Section SparseProperties.
Context `{SparseBackend}.
Variable ctrl : IPMCtrl.

(** C6: the large regularisation of the sparse overload.  [regLarge] has
    [n+m+k] entries: [xRegLarge] on the first [n] rows, [-yRegLarge] on
    the next [m] and [-zRegLarge] on the last [k], each multiplied by
    the sum of the two-norm estimates of [A], [G] and [Q] plus one
    (lines 899-923).  In an iteration [JOrig] is [JStatic] finished with
    the current [s] and [z] and carries no large regularisation; [J] is
    [JOrig] with [regLarge(i)] added to the diagonal entry [(i,i)] and
    nothing added off the diagonal; the handle holds and factors [J];
    and the two solvers are given [JOrig] and [regLarge] with that
    handle (lines 1070-1116). *)
Theorem large_regularization (Q A G : SparseMatrix) (m k n : Z) :
  let estimate :=
    TwoNormEstimate A (twoNormKrylovBasisSize ctrl) +
    TwoNormEstimate G (twoNormKrylovBasisSize ctrl) +
    HermitianTwoNormEstimate Q (twoNormKrylovBasisSize ctrl) + 1 in
  let tau := regLargeInit ctrl m k n (origTwoNormEst ctrl Q A G) in
  length tau = Z.to_nat (n + m + k) /\
  (forall i, (0 <= i < n + m + k)%Z ->
     ((i < n)%Z -> at_index tau i = xRegLarge ctrl * estimate) /\
     ((n <= i < n + m)%Z -> at_index tau i = - yRegLarge ctrl * estimate) /\
     ((n <= i)%Z -> (n + m <= i)%Z ->
      at_index tau i = - zRegLarge ctrl * estimate)) /\
  (forall numIts met JStatic m' n' k' s z rc rb rh fact,
     let stage :=
       kkt_stage ctrl numIts met JStatic tau m' n' k' s z rc rb rh fact in
     let JOrig := stage_JOrig stage in
     let J := stage_J stage in
     JOrig = FinishKKT m' n' s z JStatic /\
     (forall i j,
        entry J i j ==
        entry JOrig i j +
        (if ((i =? j) && (0 <=? i) &&
             (i <? Z.min (sp_Height JOrig) (sp_Width JOrig)))%Z
         then at_index tau i else 0)) /\
     held (stage_fact stage) = Some J /\
     factored (stage_fact stage) = true /\
     stage_outcome stage =
       two_stage_solve ctrl met JOrig tau (stage_dInner stage)
         (stage_fact stage) (stage_d stage) /\
     (twoStage ctrl = true ->
      forall info d,
        RegSolveAfter JOrig tau (stage_dInner stage) (stage_fact stage)
          (stage_d stage) (solveCtrl ctrl) = (info, d) ->
        metRequestedTol info = true ->
        stage_outcome stage = Solved d) /\
     (forall info d,
        (twoStage ctrl = false \/
         metRequestedTol
           (fst (RegSolveAfter JOrig tau (stage_dInner stage)
                   (stage_fact stage) (stage_d stage) (solveCtrl ctrl)))
         = false) ->
        RegularizedSolveAfter JOrig tau (stage_dInner stage)
          (stage_fact stage)
          (if twoStage ctrl
           then snd (RegSolveAfter JOrig tau (stage_dInner stage)
                       (stage_fact stage) (stage_d stage) (solveCtrl ctrl))
           else stage_d stage)
          (relTol (solveCtrl ctrl)) (maxRefineIts (solveCtrl ctrl))
          (progress (solveCtrl ctrl)) = (info, d) ->
        metRequestedTol info = true ->
        stage_outcome stage = Solved d)).
Proof.
  intros estimate tau.
  assert (Hlen : length tau = Z.to_nat (n + m + k)).
  { unfold tau, regLargeInit, Scale.
    now rewrite !length_map, indices_length. }
  assert (Hentry : forall i, (0 <= i < n + m + k)%Z ->
            at_index tau i =
            (if (i <? n)%Z then xRegLarge ctrl
             else if (i <? n + m)%Z then - yRegLarge ctrl
                  else - zRegLarge ctrl) * estimate).
  { intros i Hi. unfold tau, regLargeInit.
    rewrite at_index_Scale
      by (rewrite length_map, indices_length; lia).
    rewrite (at_index_map_indices
               (fun i => if (i <? n)%Z then xRegLarge ctrl
                         else if (i <? n + m)%Z then - yRegLarge ctrl
                              else - zRegLarge ctrl)) by exact Hi.
    reflexivity. }
  split; [exact Hlen|]. split.
  - intros i Hi. rewrite (Hentry i Hi). repeat split; intros Hcase.
    + destruct (Z.ltb_spec i n); [reflexivity|lia].
    + destruct (Z.ltb_spec i n); [lia|].
      destruct (Z.ltb_spec i (n + m)); [reflexivity|lia].
    + intro Hlast. destruct (Z.ltb_spec i n); [lia|].
      destruct (Z.ltb_spec i (n + m)); [lia|reflexivity].
  - intros numIts met JStatic m' n' k' s z rc rb rh fact stage JOrig J.
    split; [reflexivity|]. split.
    { intros i j. unfold J, JOrig, stage, kkt_stage. cbn [stage_J stage_JOrig].
      rewrite entry_UpdateDiagonal. apply Qplus_comp; [reflexivity|].
      destruct ((i =? j) && (0 <=? i) && _)%Z; [ring|reflexivity]. }
    split.
    { unfold J, stage, kkt_stage. cbn [stage_fact stage_J].
      now destruct ((numIts =? 0)%Z && primalInit ctrl && dualInit ctrl). }
    split; [reflexivity|]. split; [reflexivity|]. split.
    + intros Htwo info d Hsolve Hmet.
      change (stage_outcome stage) with
        (two_stage_solve ctrl met JOrig tau (stage_dInner stage)
           (stage_fact stage) (stage_d stage)).
      unfold two_stage_solve. rewrite Htwo, Hsolve, Hmet. reflexivity.
    + intros info d Hfirst Hsolve Hmet.
      change (stage_outcome stage) with
        (two_stage_solve ctrl met JOrig tau (stage_dInner stage)
           (stage_fact stage) (stage_d stage)).
      unfold two_stage_solve.
      destruct (twoStage ctrl).
      * destruct Hfirst as [Hfirst|Hfirst]; [discriminate|].
        destruct (RegSolveAfter _ _ _ _ _ _) as [info1 d1].
        cbn [fst snd] in *. rewrite Hfirst. cbn [negb].
        rewrite Hsolve, Hmet. reflexivity.
      * cbn [metRequestedTol negb]. rewrite Hsolve, Hmet. reflexivity.
Qed.

End SparseProperties.

(** ** Concrete runs

    The theorems above at the scalar QP of [DenseExample] and
    [SparseExample]. *)

Lemma RelativeComplementarityGap_cases_witness :
  (-4 < 0 /\ RelativeComplementarityGap (-4) (-4) 3 = 3 / - (-4)) /\
  (~ 1 < 0 /\ 0 < 2 /\ RelativeComplementarityGap 1 2 3 = 3 / 2) /\
  (~ 1 < 0 /\ ~ 0 < -2 /\ RelativeComplementarityGap 1 (-2) 3 = 2).
Proof.
  assert (H1 : -4 < 0) by reflexivity.
  assert (H2 : ~ 1 < 0) by discriminate.
  assert (H3 : 0 < 2) by reflexivity.
  assert (H4 : ~ 0 < -2) by discriminate.
  split; [split; [exact H1|]|split; [split; [exact H2|split; [exact H3|]]|
                                      split; [exact H2|split; [exact H4|]]]].
  - exact (proj1 (RelativeComplementarityGap_cases (-4) (-4) 3) H1).
  - exact (proj1 (proj2 (RelativeComplementarityGap_cases 1 2 3)) H2 H3).
  - exact (proj2 (proj2 (RelativeComplementarityGap_cases 1 (-2) 3)) H2 H4).
Defined.

(** Close to the solution [s] and [z] are positive, the tolerances are
    met and, with [maxIts = 0], the loop is left at once and returns. *)
Lemma convergence_gate_witness :
  (NumOutside (it_s (iterates (mem DenseExample.nearSolution))) = 0%Z /\
   NumOutside (it_z (iterates (mem DenseExample.nearSolution))) = 0%Z) /\
  (infeasError
     (record_errors (DenseExample.first_gaps [2] [] [1 # 1000] [2])
        DenseExample.nearSolution)
     <= infeasibilityTol (DenseExample.ctrl 0 false) /\
   relCompGap (DenseExample.first_gaps [2] [] [1 # 1000] [2])
     <= relativeComplementarityGapTol (DenseExample.ctrl 0 false) /\
   relObjGap (DenseExample.first_gaps [2] [] [1 # 1000] [2])
     <= relativeObjectiveGapTol (DenseExample.ctrl 0 false)) /\
  0%Z = maxIts (DenseExample.ctrl 0 false) /\
  DenseExample.first_iteration DenseExample.nearSolution =
    Break
      (record_errors (DenseExample.first_gaps [2] [] [1 # 1000] [2])
         DenseExample.nearSolution) /\
  loop (DenseExample.ctrl 0 false)
    DenseExample.Qm DenseExample.Am DenseExample.Gm
    [] [-4] [0] 0 1 1 0 4 0 1 0 DenseExample.nearSolution =
    (Returned,
     record_errors (DenseExample.first_gaps [2] [] [1 # 1000] [2])
       DenseExample.nearSolution).
Proof.
  pose proof (convergence_gate (DenseExample.ctrl 0 false)
                DenseExample.Qm DenseExample.Am DenseExample.Gm
                [] [-4] [0] 0 1 1 0 4 0 0%Z DenseExample.nearSolution)
    as (_ & Hbreak & _).
  assert (Hin :
    NumOutside (it_s (iterates (mem DenseExample.nearSolution))) = 0%Z /\
    NumOutside (it_z (iterates (mem DenseExample.nearSolution))) = 0%Z)
    by (split; reflexivity).
  assert (Hmet :
    infeasError
      (record_errors (DenseExample.first_gaps [2] [] [1 # 1000] [2])
         DenseExample.nearSolution)
      <= infeasibilityTol (DenseExample.ctrl 0 false) /\
    relCompGap (DenseExample.first_gaps [2] [] [1 # 1000] [2])
      <= relativeComplementarityGapTol (DenseExample.ctrl 0 false) /\
    relObjGap (DenseExample.first_gaps [2] [] [1 # 1000] [2])
      <= relativeObjectiveGapTol (DenseExample.ctrl 0 false)).
  { split; [|split]; vm_compute; discriminate. }
  assert (Hlim : 0%Z = maxIts (DenseExample.ctrl 0 false)) by reflexivity.
  split; [exact Hin|]. split; [exact Hmet|]. split; [exact Hlim|].
  split.
  - exact (proj1 (Hbreak Hin Hmet (or_intror Hlim))).
  - exact (proj2 (Hbreak Hin Hmet (or_intror Hlim)) 0%nat).
Defined.

(** C1 as it is stated fails at the solution of the scalar QP, [x = 2],
    [z = 0], [s = 2], with [maxIts = 0]: the three tolerances are met and
    the iteration counter equals [maxIts], and the iteration does not
    leave the loop for a successful return; it throws the [LogicError] of
    the cone check, and so does the call. *)
Lemma convergence_gate_counterexample :
  (infeasError
     (record_errors (DenseExample.first_gaps [2] [] [0] [2])
        DenseExample.atSolution)
     <= infeasibilityTol (DenseExample.ctrl 0 false) /\
   relCompGap (DenseExample.first_gaps [2] [] [0] [2])
     <= relativeComplementarityGapTol (DenseExample.ctrl 0 false) /\
   relObjGap (DenseExample.first_gaps [2] [] [0] [2])
     <= relativeObjectiveGapTol (DenseExample.ctrl 0 false)) /\
  0%Z = maxIts (DenseExample.ctrl 0 false) /\
  DenseExample.first_iteration DenseExample.atSolution =
    Throw
      (LogicError
         [AInt 0; AStr " entries of s were nonpositive and ";
          AInt 1; AStr " entries of z were nonpositive"])
      DenseExample.atSolution /\
  (forall ls',
     DenseExample.first_iteration DenseExample.atSolution <> Break ls') /\
  fst (loop (DenseExample.ctrl 0 false)
         DenseExample.Qm DenseExample.Am DenseExample.Gm
         [] [-4] [0] 0 1 1 0 4 0 1 0 DenseExample.atSolution)
    <> Returned /\
  fst (IPM (DenseExample.ctrl 0 false)
         (DenseExample.scalarQP [2] [] [0] [2])) <> Returned.
Proof.
  split; [split; [|split]; vm_compute; discriminate|].
  split; [reflexivity|]. split; [reflexivity|].
  split; [intros ls'; discriminate|]. split; discriminate.
Qed.

Lemma cone_check_witness :
  (exists v, In v (it_z (iterates (mem DenseExample.atSolution))) /\
             v <= 0) /\
  DenseExample.first_iteration DenseExample.atSolution =
    Throw
      (LogicError
         [AInt 0; AStr " entries of s were nonpositive and ";
          AInt 1; AStr " entries of z were nonpositive"])
      DenseExample.atSolution.
Proof.
  assert (Hz : exists v,
             In v (it_z (iterates (mem DenseExample.atSolution))) /\
             v <= 0).
  { exists 0. split; [left; reflexivity|discriminate]. }
  split; [exact Hz|].
  exact (proj1 (proj2 (proj1
           (cone_check (DenseExample.ctrl 0 false)
              DenseExample.Qm DenseExample.Am DenseExample.Gm
              [] [-4] [0] 0 1 1 0 4 0 0%Z DenseExample.atSolution)
           (or_intror Hz)))).
Defined.

(** The Newton step of the scalar QP from [x = 1], [z = 1], [s = 1]:
    both solves succeed and the step goes on with [s = 55/27]. *)
Lemma final_step_lengths_witness :
  @LDL DenseExample.backend
    (KKT DenseExample.Qm DenseExample.Am DenseExample.Gm [1] [1]) =
    Some DenseExample.stepKKT /\
  @SolveAfter DenseExample.backend DenseExample.stepKKT
    (@KKTRHS DenseExample.backend (rc DenseExample.stepGaps) (rb DenseExample.stepGaps)
       (rh DenseExample.stepGaps) (complementarity_residual [1] [1]) [1]) =
    Some DenseExample.stepAffine /\
  @SolveAfter DenseExample.backend DenseExample.stepKKT
    (@KKTRHS DenseExample.backend (rc DenseExample.stepGaps) (rb DenseExample.stepGaps)
       (rh DenseExample.stepGaps) DenseExample.stepRmu [1]) =
    Some DenseExample.stepCombined /\
  exists ls',
    newton_step (DenseExample.ctrl 1 false)
      DenseExample.Qm DenseExample.Am DenseExample.Gm 0 1 1
      false DenseExample.stepGaps DenseExample.stepState = Continue ls' /\
    map Qred (it_s (iterates (mem ls'))) = [55 # 27].
Proof.
  assert (HLDL :
    @LDL DenseExample.backend
      (KKT DenseExample.Qm DenseExample.Am DenseExample.Gm [1] [1]) =
      Some DenseExample.stepKKT) by reflexivity.
  assert (Haff :
    @SolveAfter DenseExample.backend DenseExample.stepKKT
      (@KKTRHS DenseExample.backend (rc DenseExample.stepGaps) (rb DenseExample.stepGaps)
         (rh DenseExample.stepGaps) (complementarity_residual [1] [1]) [1])
      = Some DenseExample.stepAffine) by (vm_compute; reflexivity).
  assert (Hsolve :
    @SolveAfter DenseExample.backend DenseExample.stepKKT
      (@KKTRHS DenseExample.backend (rc DenseExample.stepGaps) (rb DenseExample.stepGaps)
         (rh DenseExample.stepGaps) DenseExample.stepRmu [1])
      = Some DenseExample.stepCombined) by (vm_compute; reflexivity).
  split; [exact HLDL|]. split; [exact Haff|]. split; [exact Hsolve|].
  pose proof (proj2 (proj2
                (final_step_lengths (DenseExample.ctrl 1 false)
                   DenseExample.Qm DenseExample.Am DenseExample.Gm 0 1 1
                   false DenseExample.stepGaps DenseExample.stepState
                   DenseExample.stepKKT DenseExample.stepAffine
                   DenseExample.stepCombined))
                HLDL Haff Hsolve) as Hstep.
  rewrite Hstep. eexists. split; vm_compute; reflexivity.
Defined.

(** In the same Newton step the complementarity residual of the combined
    system has one entry, and the update is taken along the solution of
    the solve on that system. *)
Lemma combined_complementarity_residual_witness :
  length (it_s (iterates (mem DenseExample.stepState))) =
    length (it_z (iterates (mem DenseExample.stepState))) /\
  length DenseExample.stepRmu = 1%nat /\
  newton_step (DenseExample.ctrl 1 false)
    DenseExample.Qm DenseExample.Am DenseExample.Gm 0 1 1
    false DenseExample.stepGaps DenseExample.stepState =
  take_step (DenseExample.ctrl 1 false) false DenseExample.stepState
    (fst (fst (fst (DenseExample.expand 0 1 DenseExample.stepCombined
                      DenseExample.stepRmu [1] [1]))))
    (snd (fst (fst (DenseExample.expand 0 1 DenseExample.stepCombined
                      DenseExample.stepRmu [1] [1]))))
    (snd (fst (DenseExample.expand 0 1 DenseExample.stepCombined
                 DenseExample.stepRmu [1] [1])))
    (snd (DenseExample.expand 0 1 DenseExample.stepCombined
            DenseExample.stepRmu [1] [1])).
Proof.
  assert (HLDL :
    @LDL DenseExample.backend
      (KKT DenseExample.Qm DenseExample.Am DenseExample.Gm [1] [1]) =
      Some DenseExample.stepKKT) by reflexivity.
  assert (Haff :
    @SolveAfter DenseExample.backend DenseExample.stepKKT
      (@KKTRHS DenseExample.backend (rc DenseExample.stepGaps) (rb DenseExample.stepGaps)
         (rh DenseExample.stepGaps) (complementarity_residual [1] [1]) [1])
      = Some DenseExample.stepAffine) by (vm_compute; reflexivity).
  assert (Hsolve :
    @SolveAfter DenseExample.backend DenseExample.stepKKT
      (@KKTRHS DenseExample.backend (rc DenseExample.stepGaps) (rb DenseExample.stepGaps)
         (rh DenseExample.stepGaps) DenseExample.stepRmu [1])
      = Some DenseExample.stepCombined) by (vm_compute; reflexivity).
  assert (Hs :
    length (it_s (iterates (mem DenseExample.stepState))) =
    length (it_z (iterates (mem DenseExample.stepState))))
    by reflexivity.
  pose proof (combined_complementarity_residual
                (DenseExample.ctrl 1 false)
                DenseExample.Qm DenseExample.Am DenseExample.Gm 0 1 1
                false DenseExample.stepGaps DenseExample.stepState
                DenseExample.stepKKT DenseExample.stepAffine
                HLDL Haff Hs eq_refl eq_refl)
    as (_ & (Hlen & _) & _ & Hnewton).
  split; [exact Hs|]. split; [exact Hlen|].
  rewrite Hnewton.
  match goal with
  | |- match ?o with _ => _ end = _ =>
      replace o with (Some DenseExample.stepCombined)
        by (symmetry; exact Hsolve)
  end.
  reflexivity.
Defined.



(** Entered with [maxIts = 0] close to the solution, the call returns. *)
Lemma maxIts_zero_witness :
  maxIts (DenseExample.ctrl 0 false) = 0%Z /\
  fst (IPM (DenseExample.ctrl 0 false)
         (DenseExample.scalarQP [2] [] [1 # 1000] [2])) = Returned.
Proof.
  split; [reflexivity|].
  refine (proj2 (proj1 (proj2 (proj2
            (maxIts_zero (DenseExample.ctrl 0 false)
               (DenseExample.scalarQP [2] [] [1 # 1000] [2])
               eq_refl))) _ _)).
  - split; intros v [<-|[]]; reflexivity.
  - split; [|split]; vm_compute; discriminate.
Defined.

(** C2 as it is stated fails at the solution of the scalar QP, [x = 2],
    [z = 0], [s = 2], passed as a warm start with [maxIts = 0]: the three
    tolerances are met there (all the errors are zero), and the call
    neither returns nor throws the iteration-limit error; it throws the
    [LogicError] of the cone check. *)
Lemma maxIts_zero_counterexample :
  maxIts (DenseExample.ctrl 0 false) = 0%Z /\
  primalInit (DenseExample.ctrl 0 false) = true /\
  dualInit (DenseExample.ctrl 0 false) = true /\
  iterates (mem DenseExample.atSolution) =
    {| it_x := [2]; it_y := []; it_z := [0]; it_s := [2] |} /\
  (infeasError
     (record_errors (DenseExample.first_gaps [2] [] [0] [2])
        DenseExample.atSolution)
     <= infeasibilityTol (DenseExample.ctrl 0 false) /\
   relCompGap (DenseExample.first_gaps [2] [] [0] [2])
     <= relativeComplementarityGapTol (DenseExample.ctrl 0 false) /\
   relObjGap (DenseExample.first_gaps [2] [] [0] [2])
     <= relativeObjectiveGapTol (DenseExample.ctrl 0 false)) /\
  IPM (DenseExample.ctrl 0 false) (DenseExample.scalarQP [2] [] [0] [2]) =
    (Raised
       (LogicError
          [AInt 0; AStr " entries of s were nonpositive and ";
           AInt 1; AStr " entries of z were nonpositive"]),
     DenseExample.scalarQP [2] [] [0] [2]) /\
  fst (IPM (DenseExample.ctrl 0 false)
         (DenseExample.scalarQP [2] [] [0] [2])) <> Returned /\
  fst (IPM (DenseExample.ctrl 0 false)
         (DenseExample.scalarQP [2] [] [0] [2]))
    <> Raised DenseExample.limit0.
Proof.
  split; [reflexivity|]. split; [reflexivity|]. split; [reflexivity|].
  split; [reflexivity|]. split; [|split; [reflexivity|split; discriminate]].
  split; [|split]; vm_compute; discriminate.
Qed.

(** Under [outerEquil] the iteration-limit error hands back [z] and [s]
    in the scaled coordinates: the warm start [z = 1], [s = 1] of the
    problem with [G = [-2]] comes back as [z = 2], [s = 1/2]. *)
Lemma error_exit_keeps_scaled_iterates_witness :
  outerEquil (DenseExample.ctrl 0 true) = true /\
  fst (IPM (DenseExample.ctrl 0 true)
         (DenseExample.scaledQP [1] [] [1] [1]))
    = Raised DenseExample.limit0 /\
  iterates (snd (IPM (DenseExample.ctrl 0 true)
                   (DenseExample.scaledQP [1] [] [1] [1]))) =
    {| it_x := [1 * 1]; it_y := []; it_z := [1 * 2]; it_s := [1 / 2] |}.
Proof.
  assert (Hequil : outerEquil (DenseExample.ctrl 0 true) = true)
    by reflexivity.
  split; [exact Hequil|].
  pose proof (proj1 (proj1
                (error_exit_keeps_scaled_iterates (DenseExample.ctrl 0 true)
                   (DenseExample.scaledQP [1] [] [1] [1]) Hequil)
                DenseExample.limit0 eq_refl))
    as HIPM.
  rewrite HIPM. split; reflexivity.
Defined.

Lemma large_regularization_witness :
  (0 <= 0 < 1 + 0 + 1)%Z /\ (0 < 1)%Z /\
  at_index
    (regLargeInit (DenseExample.ctrl 1 false) 0 1 1
       (@origTwoNormEst SparseExample.backend (DenseExample.ctrl 1 false)
          SparseExample.Qs SparseExample.As SparseExample.Gs)) 0 =
  (1 # 1000) * (0 + (Abs (-1) + 0) + (Abs 2 + 0) + 1).
Proof.
  assert (Hrange : (0 <= 0 < 1 + 0 + 1)%Z) by lia.
  assert (Hx : (0 < 1)%Z) by lia.
  split; [exact Hrange|split; [exact Hx|]].
  exact (proj1 (proj1 (proj2
           (@large_regularization SparseExample.backend
              (DenseExample.ctrl 1 false)
              SparseExample.Qs SparseExample.As SparseExample.Gs 0 1 1))
           0%Z Hrange) Hx).
Defined.

(** One Newton step on the scalar QP from [x = 1], [z = 1], [s = 1] moves
    to [x = 55/27], [z = 2/27], [s = 55/27], towards the solution
    [x = 2], [z = 0], [s = 2]; with [maxIts = 1] the tolerances are not
    yet met there. *)
Example scalarQP_one_step :
  let out :=
    IPM (DenseExample.ctrl 1 false) (DenseExample.scalarQP [1] [] [1] [1]) in
  fst out =
    Raised
      (RuntimeError
         [AStr "Maximum number of iterations ("; AInt 1;
          AStr ") exceeded without "; AStr "achieving tolerances"]) /\
  map Qred (it_x (iterates (snd out))) = [55 # 27] /\
  map Qred (it_z (iterates (snd out))) = [2 # 27] /\
  map Qred (it_s (iterates (snd out))) = [55 # 27].
Proof. vm_compute. repeat split. Qed.

(** The large regularisation of the scalar QP: one [x] row and one [z]
    row, scaled by [0 + 1 + 2 + 1]. *)
Example scalarQP_regLarge :
  map Qred
    (regLargeInit (DenseExample.ctrl 1 false) 0 1 1
       (@origTwoNormEst SparseExample.backend (DenseExample.ctrl 1 false)
          SparseExample.Qs SparseExample.As SparseExample.Gs)) =
  [1 # 250; -1 # 250].
Proof. vm_compute. reflexivity. Qed.

(** ** Further properties of the scalar helpers *)

From Stdlib Require Import Lqa.

Lemma Max_cases (a b : Real) :
  (Max a b = b /\ a <= b) \/ (Max a b = a /\ b <= a).
Proof.
  unfold Max. destruct (Qlt_bool a b) eqn:E.
  - left. split; [reflexivity|]. apply Qlt_le_weak. now apply Qlt_bool_iff.
  - right. split; [reflexivity|]. apply Qnot_lt_le.
    now apply Qlt_bool_false_iff.
Qed.

Lemma Max_ge_l (a b : Real) : a <= Max a b.
Proof. destruct (Max_cases a b) as [[-> H]|[-> H]]; lra. Qed.

Lemma Max_ge_r (a b : Real) : b <= Max a b.
Proof. destruct (Max_cases a b) as [[-> H]|[-> H]]; lra. Qed.

Lemma Max_lub (a b c : Real) : a <= c -> b <= c -> Max a b <= c.
Proof. intros Ha Hb. destruct (Max_cases a b) as [[-> _]|[-> _]]; assumption. Qed.

Lemma Abs_cases (a : Real) :
  (0 <= a /\ Abs a == a) \/ (a < 0 /\ Abs a == - a).
Proof.
  unfold Abs. destruct (Qlt_le_dec a 0) as [Hneg|Hpos].
  - right. split; [exact Hneg|]. apply Qabs_neg. lra.
  - left. split; [exact Hpos|]. now apply Qabs_pos.
Qed.

(** The relative objective gap vanishes exactly when the two objectives
    agree, and it does not depend on the order of its first two
    arguments. *)
Theorem RelativeObjectiveGap_zero_iff (primObj dualObj pi : Real) :
  (RelativeObjectiveGap primObj dualObj pi == 0 <-> primObj == dualObj) /\
  RelativeObjectiveGap primObj dualObj pi ==
  RelativeObjectiveGap dualObj primObj pi.
Proof.
  unfold RelativeObjectiveGap.
  set (M := Max (Abs primObj) (Abs dualObj)).
  assert (HM0 : 0 <= M).
  { assert (HMp : Abs primObj <= M) by apply Max_ge_l.
    destruct (Abs_cases primObj) as [[? Hp]|[? Hp]]; rewrite Hp in HMp; lra. }
  assert (Hden : ~ M + 1 == 0) by lra.
  split.
  - split.
    + intro Hzero.
      assert (Hnum : Abs (primObj - dualObj) == 0).
      { setoid_replace (Abs (primObj - dualObj))
          with (Abs (primObj - dualObj) / (M + 1) * (M + 1))
          by (field; exact Hden).
        rewrite Hzero. ring. }
      destruct (Abs_cases (primObj - dualObj)) as [[? Hd]|[? Hd]];
        rewrite Hd in Hnum; lra.
    + intro Heq.
      assert (Hnum : Abs (primObj - dualObj) == 0).
      { destruct (Abs_cases (primObj - dualObj)) as [[? Hd]|[? Hd]];
          rewrite Hd; lra. }
      rewrite Hnum. field. exact Hden.
  - assert (Hnum : Abs (primObj - dualObj) == Abs (dualObj - primObj)).
    { destruct (Abs_cases (primObj - dualObj)) as [[? Hd]|[? Hd]];
        destruct (Abs_cases (dualObj - primObj)) as [[? He]|[? He]];
        rewrite Hd, He; lra. }
    assert (Hmax : M == Max (Abs dualObj) (Abs primObj)).
    { unfold M.
      destruct (Max_cases (Abs primObj) (Abs dualObj)) as [[-> ?]|[-> ?]];
        destruct (Max_cases (Abs dualObj) (Abs primObj)) as [[-> ?]|[-> ?]];
        lra. }
    rewrite Hnum, <- Hmax. reflexivity.
Qed.

(** ** Step lengths *)

Lemma boundary_ratio_pos (v dv : Vec) (r : Real) :
  (forall vi, In vi v -> 0 < vi) -> In r (boundary_ratios v dv) -> 0 < r.
Proof.
  intros Hpos Hin.
  apply boundary_ratios_In in Hin as (i & Hv & _ & Hneg & ->).
  assert (Hvi : 0 < nth i v 0) by (apply Hpos, nth_In; exact Hv).
  setoid_replace (- nth i v 0 / nth i dv 0)
    with (nth i v 0 / - nth i dv 0) by (field; lra).
  apply Qlt_shift_div_l; lra.
Qed.

Lemma MaxStep_pos (v dv : Vec) (upperBound : Real) :
  0 < upperBound -> (forall vi, In vi v -> 0 < vi) ->
  0 < MaxStep v dv upperBound.
Proof.
  intros Hub Hpos. unfold MaxStep.
  destruct (fold_left_Min_attained (boundary_ratios v dv) upperBound)
    as [->|Hin]; [exact Hub|].
  eapply boundary_ratio_pos; eassumption.
Qed.

Lemma Min_pos (a b : Real) : 0 < a -> 0 < b -> 0 < Min a b.
Proof. intros Ha Hb. destruct (Min_cases a b) as [[-> _]|[-> _]]; assumption. Qed.

Section StepControl.
Variable ctrl : IPMCtrl.

(** Lines 346-349 and 388-393: from iterates inside the cone and a positive
    [maxStepRatio], no step length the driver takes is negative or above
    one, whatever the directions, and under [forceSameStep] the primal and
    the dual one coincide. *)
Theorem step_lengths_in_unit_interval (s ds z dz : Vec) :
  0 < maxStepRatio ctrl ->
  (forall v, In v s -> 0 < v) -> (forall v, In v z -> 0 < v) ->
  let alpha := step_lengths ctrl s ds z dz in
  let alphaAff := affine_step_lengths ctrl s ds z dz in
  (0 <= fst alpha /\ fst alpha <= 1) /\
  (0 <= snd alpha /\ snd alpha <= 1) /\
  (0 <= fst alphaAff /\ fst alphaAff <= 1) /\
  (0 <= snd alphaAff /\ snd alphaAff <= 1) /\
  (forceSameStep ctrl = true ->
   fst alpha = snd alpha /\ fst alphaAff = snd alphaAff).
Proof.
  intros Heta Hs Hz alpha alphaAff.
  assert (Hinv : 0 < 1 / maxStepRatio ctrl)
    by (apply Qlt_shift_div_l; lra).
  pose proof (MaxStep_pos s ds _ Hinv Hs) as Hp.
  pose proof (MaxStep_pos z dz _ Hinv Hz) as Hd.
  assert (Hone : (0 : Q) < 1) by lra.
  pose proof (MaxStep_pos s ds _ Hone Hs) as Hpa.
  pose proof (MaxStep_pos z dz _ Hone Hz) as Hda.
  pose proof (fold_left_Min_le_init (boundary_ratios s ds) 1) as Hpa1.
  pose proof (fold_left_Min_le_init (boundary_ratios z dz) 1) as Hda1.
  fold (MaxStep s ds 1) in Hpa1. fold (MaxStep z dz 1) in Hda1.
  set (ap := Min (maxStepRatio ctrl * MaxStep s ds (1 / maxStepRatio ctrl)) 1).
  set (ad := Min (maxStepRatio ctrl * MaxStep z dz (1 / maxStepRatio ctrl)) 1).
  assert (Hap : 0 <= ap /\ ap <= 1).
  { split; [|apply Min_le_r]. apply Qlt_le_weak.
    apply Min_pos; [apply Qmult_lt_0_compat; assumption|lra]. }
  assert (Had : 0 <= ad /\ ad <= 1).
  { split; [|apply Min_le_r]. apply Qlt_le_weak.
    apply Min_pos; [apply Qmult_lt_0_compat; assumption|lra]. }
  assert (Hmin : forall a b, 0 <= a -> 0 <= b -> 0 <= Min a b).
  { intros a b Ha Hb.
    destruct (Min_cases a b) as [[-> _]|[-> _]]; assumption. }
  apply Qlt_le_weak in Hpa, Hda.
  unfold alpha, alphaAff, step_lengths, affine_step_lengths.
  fold ap. fold ad.
  destruct (forceSameStep ctrl); cbn [fst snd].
  - assert (Hm : 0 <= Min ap ad /\ Min ap ad <= 1).
    { split; [apply Hmin; tauto|].
      eapply Qle_trans; [apply Min_le_l|tauto]. }
    assert (Hma : 0 <= Min (MaxStep s ds 1) (MaxStep z dz 1) /\
                  Min (MaxStep s ds 1) (MaxStep z dz 1) <= 1).
    { split; [apply Hmin; assumption|].
      eapply Qle_trans; [apply Min_le_l|assumption]. }
    repeat split; tauto.
  - repeat split; try tauto; try assumption; discriminate.
Qed.

Lemma step_lengths_positive (s ds z dz : Vec) :
  0 < maxStepRatio ctrl ->
  (forall v, In v s -> 0 < v) -> (forall v, In v z -> 0 < v) ->
  0 < fst (step_lengths ctrl s ds z dz) /\
  0 < snd (step_lengths ctrl s ds z dz).
Proof.
  intros Heta Hs Hz.
  assert (Hinv : 0 < 1 / maxStepRatio ctrl)
    by (apply Qlt_shift_div_l; lra).
  pose proof (MaxStep_pos s ds _ Hinv Hs) as Hp.
  pose proof (MaxStep_pos z dz _ Hinv Hz) as Hd.
  assert (Hap : 0 < Min (maxStepRatio ctrl *
                         MaxStep s ds (1 / maxStepRatio ctrl)) 1)
    by (apply Min_pos; [apply Qmult_lt_0_compat; assumption|lra]).
  assert (Had : 0 < Min (maxStepRatio ctrl *
                         MaxStep z dz (1 / maxStepRatio ctrl)) 1)
    by (apply Min_pos; [apply Qmult_lt_0_compat; assumption|lra]).
  unfold step_lengths. destruct (forceSameStep ctrl); cbn [fst snd].
  - split; apply Min_pos; assumption.
  - split; assumption.
Qed.

End StepControl.

(** ** Invariants of the dense loop *)

Lemma inside_cone_NumOutside (it : Iterates) :
  inside_cone it <->
  NumOutside (it_s it) = 0%Z /\ NumOutside (it_z it) = 0%Z.
Proof. unfold inside_cone. now rewrite !NumOutside_zero. Qed.

Section DenseInvariants.
Context `{DenseBackend}.
Variable ctrl : IPMCtrl.

Section LoopInvariants.
Variables Q A G : Matrix.
Variables b c h : Vec.
Variables m k n : Z.
Variables bNrm2 cNrm2 hNrm2 : Real.

Abbreviation gaps_of it := (gaps Q A G b c h k n bNrm2 cNrm2 hNrm2 it).
Abbreviation newton := (newton_step ctrl Q A G m k n).
Abbreviation check := (check_convergence ctrl Q A G b c h m k n bNrm2 cNrm2 hNrm2).
Abbreviation iter := (iteration ctrl Q A G b c h m k n bNrm2 cNrm2 hNrm2).
Abbreviation run := (loop ctrl Q A G b c h m k n bNrm2 cNrm2 hNrm2).

(** From inside the cone and with a positive [maxStepRatio], the Newton
    step either goes on with the update or ends having written nothing. *)
Lemma newton_step_exits (met : bool) (g : Gaps) (ls : LoopState) :
  0 < maxStepRatio ctrl -> inside_cone (iterates (mem ls)) ->
  (met = true /\ newton met g ls = Break ls) \/
  (met = false /\
   newton met g ls =
     Throw (RuntimeError [AStr "Could not achieve tolerances"]) ls) \/
  newton met g ls = Throw SolveException ls \/
  exists dx dy dz ds,
    let s := it_s (iterates (mem ls)) in
    let z := it_z (iterates (mem ls)) in
    let alpha := step_lengths ctrl s ds z dz in
    newton met g ls =
      Continue
        (write_mem
           (write_iterates
              {| it_x := Axpy (fst alpha) dx (it_x (iterates (mem ls)));
                 it_y := Axpy (snd alpha) dy (it_y (iterates (mem ls)));
                 it_z := Axpy (snd alpha) dz z;
                 it_s := Axpy (fst alpha) ds s |}
              (mem ls)) ls).
Proof.
  intros Heta [Hs Hz].
  destruct (newton_step_inv ctrl Q A G m k n met g ls)
    as [Hb|[Ht|[Ht|(dx & dy & dz & ds & Hupd)]]]; auto.
  do 3 right. exists dx, dy, dz, ds. cbv zeta in *.
  destruct (step_lengths_positive ctrl _ ds _ dz Heta Hs Hz) as [Hp Hd].
  destruct Hupd as [[_ Hf]|(Hzero & _ & _)]; [exact Hf|].
  rewrite Hzero in Hp. exfalso. lra.
Qed.

(** What [check_convergence] can be. *)
Lemma check_convergence_cases (numIts : Z) (ls : LoopState) :
  let g := gaps_of (iterates (mem ls)) in
  let ls1 := record_errors g ls in
  let limit :=
    RuntimeError
      [AStr "Maximum number of iterations ("; AInt (maxIts ctrl);
       AStr ") exceeded without "; AStr "achieving tolerances"] in
  (metTolerances ctrl g ls1 = true /\ check numIts ls = Break ls1) \/
  (metTolerances ctrl g ls1 = false /\ numIts = maxIts ctrl /\
   check numIts ls = Throw limit ls1) \/
  (numIts <> maxIts ctrl /\
   check numIts ls = newton (metTolerances ctrl g ls1) g ls1).
Proof.
  intros g ls1 limit.
  pose proof (check_convergence_eq ctrl Q A G b c h m k n
                bNrm2 cNrm2 hNrm2 numIts ls) as Hcheck.
  cbv zeta in Hcheck. fold g in Hcheck. fold ls1 in Hcheck.
  fold limit in Hcheck. rewrite Hcheck.
  destruct (metTolerances ctrl g ls1).
  - destruct (Qle_bool _ _); [left; split; reflexivity|].
    destruct (Z.eqb_spec numIts (maxIts ctrl)); [left|right; right];
      split; auto.
  - destruct (Z.eqb_spec numIts (maxIts ctrl)); [right; left|right; right];
      repeat split; auto.
Qed.

(** Lines 269-280: the iteration entered with [numIts = maxIts] takes no
    Newton step; it ends the loop, by [break] or by an exception, and
    leaves the caller's objects as it found them. *)
Theorem last_iteration_writes_nothing (ls : LoopState) :
  (forall ls', iter (maxIts ctrl) ls <> Continue ls') /\
  mem (flow_state (iter (maxIts ctrl) ls)) = mem ls.
Proof.
  unfold iteration.
  destruct (_ || _)%bool; [split; [discriminate|reflexivity]|].
  destruct (check_convergence_cases (maxIts ctrl) ls)
    as [[_ Hf]|[(_ & _ & Hf)|[Hne _]]]; try (exfalso; now apply Hne);
    rewrite Hf; split; try discriminate; reflexivity.
Qed.

(** Lines 15-28 and 257-280: when the primal objective is nonnegative and
    the dual objective is nonpositive, the relative complementarity gap is
    2, so with a tolerance below 2 the tolerances are not met, the
    iteration cannot end in a normal return, and at [numIts = maxIts] it
    throws the iteration-limit error, however small the residuals are. *)
Theorem inadmissible_signs_never_converge (numIts : Z) (ls : LoopState) :
  let g := gaps_of (iterates (mem ls)) in
  let ls1 := record_errors g ls in
  0 <= primObj g -> dualObj g <= 0 ->
  relativeComplementarityGapTol ctrl < 2 ->
  relCompGap g = 2 /\
  metTolerances ctrl g ls1 = false /\
  (forall ls', check numIts ls <> Break ls') /\
  (numIts = maxIts ctrl ->
   check numIts ls =
     Throw
       (RuntimeError
          [AStr "Maximum number of iterations ("; AInt (maxIts ctrl);
           AStr ") exceeded without "; AStr "achieving tolerances"])
       ls1).
Proof.
  intros g ls1 Hp Hd Htol.
  assert (Hgap : relCompGap g = 2).
  { unfold g, gaps. cbn [relCompGap].
    unfold RelativeComplementarityGap.
    fold (primObj g). fold (dualObj g).
    assert (Ep : Qlt_bool (primObj g) 0 = false)
      by (apply Qlt_bool_false_iff; lra).
    assert (Ed : Qlt_bool 0 (dualObj g) = false)
      by (apply Qlt_bool_false_iff; lra).
    unfold g, gaps in Ep, Ed. cbn [primObj dualObj] in Ep, Ed.
    now rewrite Ep, Ed. }
  assert (Hmet : metTolerances ctrl g ls1 = false).
  { unfold metTolerances. rewrite Hgap.
    assert (E : Qle_bool 2 (relativeComplementarityGapTol ctrl) = false).
    { destruct (Qle_bool 2 _) eqn:E; [|reflexivity].
      apply Qle_bool_iff in E. lra. }
    rewrite E. now rewrite andb_false_r. }
  split; [exact Hgap|]. split; [exact Hmet|].
  destruct (check_convergence_cases numIts ls)
    as [[Hm _]|[(_ & Hl & Hf)|[Hne Hf]]].
  - fold g in Hm. fold ls1 in Hm. congruence.
  - split; [rewrite Hf; discriminate|]. intros _. exact Hf.
  - split; [|intro Hl; contradiction].
    fold g in Hf. fold ls1 in Hf. rewrite Hf, Hmet.
    intros ls' Hb.
    destruct (newton_step_inv ctrl Q A G m k n false g ls1)
      as [[Hm _]|[[_ Hn]|[Hn|(dx & dy & dz & ds & Hupd)]]];
      try discriminate Hm; try (rewrite Hn in Hb; discriminate Hb).
    cbv zeta in Hupd.
    destruct Hupd as [[_ Hn]|(_ & _ & [[Hm _]|[_ Hn]])];
      try discriminate Hm; rewrite Hn in Hb; discriminate Hb.
Qed.

(** Lines 234-236: the DIMACS error is the least upper bound of the five
    measures: it is at most [t] exactly when the three relative residuals
    and the two relative gaps are. *)
Theorem dimacsError_bounds (g : Gaps) (ls : LoopState) (t : Real) :
  g = gaps_of (iterates (mem ls)) ->
  let ls1 := record_errors g ls in
  (dimacsError ls1 <= t <->
   rbConv g <= t /\ rcConv g <= t /\ rhConv g <= t /\
   relObjGap g <= t /\ relCompGap g <= t) /\
  infeasError ls1 <= dimacsError ls1.
Proof.
  intros Hg ls1.
  assert (Hrel : maxRelGap g = Max (relObjGap g) (relCompGap g))
    by (rewrite Hg; reflexivity).
  unfold ls1, record_errors. cbn [dimacsError infeasError]. rewrite Hrel.
  pose proof (Max_ge_l (rbConv g) (rcConv g)).
  pose proof (Max_ge_r (rbConv g) (rcConv g)).
  pose proof (Max_ge_l (Max (rbConv g) (rcConv g)) (rhConv g)).
  pose proof (Max_ge_r (Max (rbConv g) (rcConv g)) (rhConv g)).
  pose proof (Max_ge_l (relObjGap g) (relCompGap g)).
  pose proof (Max_ge_r (relObjGap g) (relCompGap g)).
  pose proof (Max_ge_l (Max (Max (rbConv g) (rcConv g)) (rhConv g))
                (Max (relObjGap g) (relCompGap g))).
  pose proof (Max_ge_r (Max (Max (rbConv g) (rcConv g)) (rhConv g))
                (Max (relObjGap g) (relCompGap g))).
  split; [split|assumption].
  - intro Hle. repeat split; lra.
  - intros (Hb & Hc & Hh & Ho & Hcg). repeat apply Max_lub; assumption.
Qed.

Lemma last_iteration_no_continue (ls ls' : LoopState) :
  iter (maxIts ctrl) ls <> Continue ls'.
Proof.
  unfold iteration. destruct (_ || _)%bool; [discriminate|].
  destruct (check_convergence_cases (maxIts ctrl) ls)
    as [[_ Hf]|[(_ & _ & Hf)|[Hne _]]]; try (exfalso; now apply Hne);
    rewrite Hf; discriminate.
Qed.

Lemma iteration_checked_cone (numIts : Z) (ls : LoopState) :
  (exists e, iter numIts ls = Throw e ls /\ forall msg, e <> RuntimeError msg)
  \/ (inside_cone (iterates (mem ls)) /\ iter numIts ls = check numIts ls).
Proof.
  unfold iteration.
  destruct (_ || _)%bool eqn:E.
  - left. eexists. split; [reflexivity|discriminate].
  - right. split; [|reflexivity].
    apply orb_false_iff in E as [Es Ez]. apply Z.ltb_ge in Es, Ez.
    apply inside_cone_NumOutside.
    pose proof (NumOutside_nonneg (it_s (iterates (mem ls)))).
    pose proof (NumOutside_nonneg (it_z (iterates (mem ls)))).
    lia.
Qed.

Lemma iteration_breaks_met (numIts : Z) (ls ls' : LoopState) :
  0 < maxStepRatio ctrl ->
  iter numIts ls = Break ls' ->
  inside_cone (iterates (mem ls)) /\
  ls' = record_errors (gaps_of (iterates (mem ls))) ls /\
  metTolerances ctrl (gaps_of (iterates (mem ls))) ls' = true.
Proof.
  intros Heta Hb.
  destruct (iteration_checked_cone numIts ls)
    as [(e & Ht & _)|[Hcone Hit]]; [rewrite Ht in Hb; discriminate|].
  split; [exact Hcone|]. rewrite Hit in Hb.
  set (g := gaps_of (iterates (mem ls))) in *.
  set (ls1 := record_errors g ls) in *.
  destruct (check_convergence_cases numIts ls)
    as [[Hm Hf]|[(_ & _ & Hf)|[_ Hf]]];
    fold g in Hf; fold ls1 in Hf; rewrite Hf in Hb.
  - fold g in Hm. fold ls1 in Hm.
    injection Hb as <-. split; [reflexivity|exact Hm].
  - discriminate.
  - assert (Hcone1 : inside_cone (iterates (mem ls1))) by exact Hcone.
    destruct (newton_step_exits (metTolerances ctrl g ls1) g ls1 Heta Hcone1)
      as [[Hm Hn]|[[_ Hn]|[Hn|(dx & dy & dz & ds & Hn)]]];
      rewrite Hn in Hb; try discriminate Hb.
    injection Hb as <-. split; [reflexivity|exact Hm].
Qed.

Lemma loop_returns_met (remaining : nat) (numIts : Z) (ls ls' : LoopState) :
  (0 < remaining)%nat ->
  Z.of_nat remaining = (maxIts ctrl + 1 - numIts)%Z ->
  0 < maxStepRatio ctrl ->
  run remaining numIts ls = (Returned, ls') ->
  exists lsj,
    inside_cone (iterates (mem lsj)) /\
    ls' = record_errors (gaps_of (iterates (mem lsj))) lsj /\
    metTolerances ctrl (gaps_of (iterates (mem lsj))) ls' = true.
Proof.
  intros Hpos Hcount Heta. revert numIts ls Hpos Hcount.
  induction remaining as [|r IH]; intros numIts ls Hpos Hcount Hrun;
    [lia|].
  rewrite loop_step in Hrun.
  destruct (iter numIts ls) as [ls2|ls2|e ls2] eqn:Eit.
  - assert (Hne : numIts <> maxIts ctrl).
    { intros ->. exact (last_iteration_no_continue _ _ Eit). }
    apply (IH (numIts + 1)%Z ls2); [lia|lia|exact Hrun].
  - injection Hrun as <-. exists ls.
    now apply (iteration_breaks_met numIts).
  - discriminate.
Qed.

End LoopInvariants.

(** Lines 176-280 and 400-411: when [maxIts >= 0] and [maxStepRatio > 0],
    a call that returns normally has ended on an iterate that passed the
    cone check and met the three tolerances: [s > 0] and [z > 0]
    entrywise, and the infeasibility error and the two relative gaps of
    exactly that iterate are within their tolerances.  (Under [outerEquil]
    the caller gets this iterate with the scalings undone.) *)
Theorem normal_return_meets_tolerances (st : CallerStore) :
  (0 <= maxIts ctrl)%Z -> 0 < maxStepRatio ctrl ->
  fst (IPM ctrl st) = Returned ->
  let loc := fst (enter_loop ctrl st) in
  let ls' := snd (run_loop ctrl loc (snd (enter_loop ctrl st))) in
  let g :=
    gaps (loc_Q loc) (loc_A loc) (loc_G loc)
         (loc_b loc) (loc_c loc) (loc_h loc) (loc_k loc) (loc_n loc)
         (Nrm2 (loc_b loc)) (Nrm2 (loc_c loc)) (Nrm2 (loc_h loc))
         (iterates (mem ls')) in
  inside_cone (iterates (mem ls')) /\
  infeasError ls' = Max (Max (rbConv g) (rcConv g)) (rhConv g) /\
  infeasError ls' <= infeasibilityTol ctrl /\
  relCompGap g <= relativeComplementarityGapTol ctrl /\
  relObjGap g <= relativeObjectiveGapTol ctrl /\
  iterates (snd (IPM ctrl st)) =
    (if outerEquil ctrl
     then unscale (dRowA loc) (dRowG loc) (dCol loc) (iterates (mem ls'))
     else iterates (mem ls')).
Proof.
  intros Hmax Heta Hret loc ls' g.
  rewrite IPM_unfold in Hret |- *. cbv zeta in Hret |- *. fold loc in Hret |- *.
  destruct (run_loop ctrl loc (snd (enter_loop ctrl st)))
    as [res lsf] eqn:Erun.
  cbn [fst snd] in Hret |- *. subst ls'. cbn [snd] in g |- *.
  destruct res as [|e];
    [|exfalso; cbn [fst] in Hret; discriminate Hret].
  unfold run_loop in Erun.
  apply loop_returns_met in Erun as (lsj & Hcone & Hls & Hmet);
    [|lia|lia|exact Heta].
  assert (Hmem : mem lsf = mem lsj) by (rewrite Hls; reflexivity).
  assert (Hg : g = gaps (loc_Q loc) (loc_A loc) (loc_G loc)
                 (loc_b loc) (loc_c loc) (loc_h loc) (loc_k loc) (loc_n loc)
                 (Nrm2 (loc_b loc)) (Nrm2 (loc_c loc)) (Nrm2 (loc_h loc))
                 (iterates (mem lsj)))
    by (unfold g; now rewrite Hmem).
  rewrite <- Hg in Hls, Hmet.
  apply metTolerances_iff in Hmet as (Hi & Hc & Ho).
  rewrite Hmem.
  split; [exact Hcone|]. split; [rewrite Hls; reflexivity|].
  split; [exact Hi|]. split; [exact Hc|]. split; [exact Ho|].
  destruct (outerEquil ctrl); cbn [snd]; now rewrite ?Hmem.
Qed.

(** Line 176: with a negative [maxIts] the loop body never runs.  The call
    returns normally with whatever [Initialize] produced (the scalings
    undone under [outerEquil]): no cone check, no residual and no tolerance
    is evaluated. *)
Theorem negative_maxIts_returns_unchecked (st : CallerStore) :
  (maxIts ctrl < 0)%Z ->
  let loc := fst (enter_loop ctrl st) in
  let ls0 := snd (enter_loop ctrl st) in
  run_loop ctrl loc ls0 = (Returned, ls0) /\
  IPM ctrl st =
    (Returned,
     if outerEquil ctrl
     then write_iterates
            (unscale (dRowA loc) (dRowG loc) (dCol loc) (iterates (mem ls0)))
            (mem ls0)
     else mem ls0).
Proof.
  intros Hneg loc ls0.
  assert (Hrun : run_loop ctrl loc ls0 = (Returned, ls0)).
  { unfold run_loop.
    replace (Z.to_nat (maxIts ctrl + 1)) with 0%nat by lia. reflexivity. }
  split; [exact Hrun|].
  rewrite IPM_unfold. cbv zeta. fold loc. fold ls0. rewrite Hrun.
  cbn [fst snd]. now destruct (outerEquil ctrl).
Qed.

End DenseInvariants.

(** ** The Frobenius norm of a Hermitian matrix *)

Section HermitianNormProperties.
Import HermitianNorm.

Lemma fold_left_ext_In {X Y} (F G : Y -> X -> Y) (l : list X) :
  (forall acc x, In x l -> F acc x = G acc x) ->
  forall a, fold_left F l a = fold_left G l a.
Proof.
  induction l as [|x l IH]; intros HF a; simpl; [reflexivity|].
  rewrite HF by now left. apply IH. intros acc y Hy. apply HF. now right.
Qed.

Lemma fold_left_nonneg {X} (F : Q -> X -> Q) (l : list X) :
  (forall acc x, In x l -> 0 <= acc -> 0 <= F acc x) ->
  forall a, 0 <= a -> 0 <= fold_left F l a.
Proof.
  induction l as [|x l IH]; intros HF a Ha; simpl; [exact Ha|].
  apply IH.
  - intros acc y Hy. apply HF. now right.
  - apply HF; [now left|exact Ha].
Qed.

Lemma fold_left_zero {X} (F : Q -> X -> Q) (l : list X) :
  (forall acc x, In x l -> acc == 0 -> F acc x == 0) ->
  forall a, a == 0 -> fold_left F l a == 0.
Proof.
  induction l as [|x l IH]; intros HF a Ha; simpl; [exact Ha|].
  apply IH.
  - intros acc y Hy. apply HF. now right.
  - apply HF; [now left|exact Ha].
Qed.

Lemma double_square_nonneg (a : Q) : 0 <= 2 * a * a.
Proof.
  assert (0 <= a * a) by nra. lra.
Qed.

(** Lines 45-80: only the triangle named by [uplo] is read.  Two matrices
    of the same dimensions that agree on that triangle get the same
    outcome, the error for a matrix that is not square included. *)
Theorem HermitianFrobeniusNorm_reads_one_triangle (sqrt : Q -> Q)
  (uplo : UpperOrLower) (A B : Matrix) :
  Height A = Height B -> Width A = Width B ->
  (forall i j, in_triangle uplo (Width A) i j -> Get A i j = Get B i j) ->
  HermitianFrobeniusNorm sqrt uplo A = HermitianFrobeniusNorm sqrt uplo B.
Proof.
  intros HH HW Hagree. unfold HermitianFrobeniusNorm.
  rewrite <- HH, <- HW.
  destruct (Nat.eqb_spec (Height A) (Width A)) as [Hsq|]; [|reflexivity].
  cbn [negb]. do 2 f_equal.
  destruct uplo; unfold normSquared; rewrite <- ?HH, <- HW;
    apply fold_left_ext_In; intros acc j Hj; apply in_seq in Hj; cbv zeta.
  - rewrite (Hagree j j) by (cbn; lia). f_equal.
    apply fold_left_ext_In. intros acc' i Hi. apply in_seq in Hi.
    rewrite (Hagree i j) by (cbn; lia). reflexivity.
  - rewrite (Hagree j j) by (cbn; lia). f_equal.
    apply fold_left_ext_In. intros acc' i Hi. apply in_seq in Hi.
    rewrite (Hagree i j) by (cbn; lia). reflexivity.
Qed.

(** Lines 48-74: what the loops accumulate is never negative, so the
    root of line 76 is taken of a nonnegative number; and on a square
    matrix whose triangle [uplo] is zero they accumulate zero. *)
Theorem normSquared_nonneg (uplo : UpperOrLower) (A : Matrix) :
  0 <= normSquared uplo A /\
  (Height A = Width A ->
   (forall i j, in_triangle uplo (Width A) i j -> Get A i j == 0) ->
   normSquared uplo A == 0).
Proof.
  assert (Hsquare : forall a : Q, 0 <= a * a) by (intro a; nra).
  split.
  - destruct uplo; unfold normSquared;
      (apply fold_left_nonneg; [|apply Qle_refl]);
      intros acc j _ Hacc; cbv zeta.
    + assert (Hin : 0 <= fold_left
                (fun normSquared i =>
                   normSquared + 2 * Get A i j * Get A i j)
                (seq (j + 1) (Height A - (j + 1))) acc).
      { apply fold_left_nonneg; [|exact Hacc].
        intros acc' i _ Hacc'.
        pose proof (double_square_nonneg (Get A i j)). lra. }
      pose proof (Hsquare (Get A j j)). lra.
    + assert (Hin : 0 <= fold_left
                (fun normSquared i =>
                   normSquared + 2 * Get A i j * Get A i j)
                (seq 0 j) acc).
      { apply fold_left_nonneg; [|exact Hacc].
        intros acc' i _ Hacc'.
        pose proof (double_square_nonneg (Get A i j)). lra. }
      pose proof (Hsquare (Get A j j)). lra.
  - intros Hsq Hzero.
    destruct uplo; unfold normSquared; rewrite ?Hsq;
      (apply fold_left_zero; [|reflexivity]);
      intros acc j Hj Hacc; apply in_seq in Hj; cbv zeta.
    + assert (Hin : fold_left
                (fun normSquared i =>
                   normSquared + 2 * Get A i j * Get A i j)
                (seq (j + 1) (Width A - (j + 1))) acc == 0).
      { apply fold_left_zero; [|exact Hacc].
        intros acc' i Hi Hacc'. apply in_seq in Hi.
        rewrite Hacc', (Hzero i j) by (cbn; lia). ring. }
      rewrite Hin, (Hzero j j) by (cbn; lia). ring.
    + assert (Hin : fold_left
                (fun normSquared i =>
                   normSquared + 2 * Get A i j * Get A i j)
                (seq 0 j) acc == 0).
      { apply fold_left_zero; [|exact Hacc].
        intros acc' i Hi Hacc'. apply in_seq in Hi.
        rewrite Hacc', (Hzero i j) by (cbn; lia). ring. }
      rewrite Hin, (Hzero j j) by (cbn; lia). ring.
Qed.

(** Lines 140-180: on one process, only the local entries whose global
    position lies in the triangle [uplo] are read, when [LocalLength]
    counts local indices. *)
Lemma localNormSquared_reads_one_triangle
  (LocalLength : nat -> nat -> nat -> nat) (uplo : UpperOrLower)
  (A B : DistHermitianNorm.DistMatrix) :
  DistHermitianNorm.counts_local_indices LocalLength ->
  (0 < DistHermitianNorm.GridHeight A)%nat ->
  DistHermitianNorm.same_triangle uplo A B ->
  DistHermitianNorm.localNormSquared LocalLength uplo A =
  DistHermitianNorm.localNormSquared LocalLength uplo B.
Proof.
  intros contract Hr (Hgr & Hgc & Hcs & Hrs & Hlh & Hlw & Hentry).
  unfold DistHermitianNorm.localNormSquared.
  rewrite <- Hgr, <- Hgc, <- Hcs, <- Hrs, <- Hlh, <- Hlw.
  destruct uplo; apply fold_left_ext_In; intros acc jLocal _; cbv zeta;
    apply fold_left_ext_In; intros acc' iLocal Hi; apply in_seq in Hi.
  - rewrite (Hentry iLocal jLocal); [reflexivity|]. cbv zeta.
    assert (Hge : ~ (DistHermitianNorm.ColShift A +
                     iLocal * DistHermitianNorm.GridHeight A <
                     DistHermitianNorm.RowShift A +
                     jLocal * DistHermitianNorm.GridWidth A)%nat).
    { intro Hlt. apply (contract _ _ _ iLocal Hr) in Hlt. lia. }
    lia.
  - rewrite (Hentry iLocal jLocal); [reflexivity|]. cbv zeta.
    assert (Hlt : (DistHermitianNorm.ColShift A +
                   iLocal * DistHermitianNorm.GridHeight A <
                   DistHermitianNorm.RowShift A +
                   jLocal * DistHermitianNorm.GridWidth A + 1)%nat)
      by (apply (contract _ _ _ iLocal Hr); lia).
    lia.
Qed.

(** HermitianFrobeniusNorm.hpp lines 129-192: the distributed overload
    reads, on every process, only the local entries whose global position
    lies in the triangle [uplo].  When [LocalLength] counts local indices,
    two distributed matrices of the same dimensions whose local blocks
    have the same shape and agree on those entries get the same outcome,
    the error for a matrix that is not square included. *)
Theorem distributed_norm_reads_one_triangle (sqrt : Q -> Q)
  (LocalLength : nat -> nat -> nat -> nat) (uplo : UpperOrLower)
  (gridA gridB : list DistHermitianNorm.DistMatrix)
  (A B : DistHermitianNorm.DistMatrix) :
  DistHermitianNorm.counts_local_indices LocalLength ->
  Forall (fun P => (0 < DistHermitianNorm.GridHeight P)%nat) gridA ->
  Forall2 (DistHermitianNorm.same_triangle uplo) gridA gridB ->
  DistHermitianNorm.Height A = DistHermitianNorm.Height B ->
  DistHermitianNorm.Width A = DistHermitianNorm.Width B ->
  DistHermitianNorm.HermitianFrobeniusNorm LocalLength sqrt uplo gridA A =
  DistHermitianNorm.HermitianFrobeniusNorm LocalLength sqrt uplo gridB B.
Proof.
  intros contract Hgrid Hsame HH HW.
  unfold DistHermitianNorm.HermitianFrobeniusNorm.
  rewrite <- HH, <- HW.
  destruct (negb _); [reflexivity|]. cbv zeta. do 3 f_equal.
  induction Hsame as [|P P' restA restB HP Hrest IH]; [reflexivity|].
  inversion Hgrid as [|? ? HrP HrRest]; subst.
  cbn [map]. f_equal.
  - apply localNormSquared_reads_one_triangle; assumption.
  - apply IH. exact HrRest.
Qed.

End HermitianNormProperties.

(** ** The two-stage solve of the sparse overload *)

Section SparseInvariants.
Context `{SparseBackend}.
Variable ctrl : IPMCtrl.

(** Lines 1104-1129 and 1202-1227: a direction is only accepted from a
    solver that reported [metRequestedTol].  The fallback
    [RegularizedSolveAfter] runs exactly when the first stage is off or
    has failed, and it starts from the right-hand side as the first stage
    left it; the solve ends the loop ([break] when the tolerances were
    met, "Could not achieve tolerances" otherwise) only when the fallback
    has failed too. *)
Theorem two_stage_solve_sound (met : bool) (JOrig : SparseMatrix)
  (regLarge dInner : Vec) (sparseLDLFact : SparseLDLFactorization)
  (d : Vec) :
  let first :=
    RegSolveAfter JOrig regLarge dInner sparseLDLFact d (solveCtrl ctrl) in
  let acceptedFirst := twoStage ctrl && metRequestedTol (fst first) in
  let second :=
    RegularizedSolveAfter JOrig regLarge dInner sparseLDLFact
      (if twoStage ctrl then snd first else d)
      (relTol (solveCtrl ctrl)) (maxRefineIts (solveCtrl ctrl))
      (progress (solveCtrl ctrl)) in
  let outcome :=
    two_stage_solve ctrl met JOrig regLarge dInner sparseLDLFact d in
  (forall d', outcome = Solved d' ->
     (acceptedFirst = true /\ d' = snd first) \/
     (acceptedFirst = false /\ metRequestedTol (fst second) = true /\
      d' = snd second)) /\
  (outcome = SolveBreak ->
     met = true /\ acceptedFirst = false /\
     metRequestedTol (fst second) = false) /\
  (forall e, outcome = SolveThrow e ->
     met = false /\ e = RuntimeError [AStr "Could not achieve tolerances"] /\
     acceptedFirst = false /\ metRequestedTol (fst second) = false).
Proof.
  intros first acceptedFirst second outcome.
  unfold outcome, two_stage_solve, acceptedFirst, second.
  fold first.
  assert (Hfail : forall info2 : RegSolveInfo,
            metRequestedTol info2 = false ->
            let outcome :=
              if met then SolveBreak
              else SolveThrow
                     (RuntimeError [AStr "Could not achieve tolerances"]) in
            (forall d', outcome = Solved d' -> False) /\
            (outcome = SolveBreak -> met = true) /\
            (forall e, outcome = SolveThrow e ->
               met = false /\
               e = RuntimeError [AStr "Could not achieve tolerances"])).
  { intros info2 _. cbv zeta. destruct met.
    - split; [discriminate|]. split; [reflexivity|discriminate].
    - split; [discriminate|]. split; [discriminate|].
      intros e He. split; [reflexivity|]. now injection He as <-. }
  destruct (twoStage ctrl).
  - destruct first as [info1 d1]. cbn [fst snd andb].
    destruct (metRequestedTol info1); cbn [negb].
    + split; [|split; [|intro e]; discriminate].
      intros d' Hd. left. split; [reflexivity|]. now injection Hd as <-.
    + destruct (RegularizedSolveAfter _ _ _ _ _ _ _ _) as [info2 d2].
      cbn [fst snd].
      destruct (metRequestedTol info2) eqn:E2; cbn [negb].
      * split; [|split; [|intro e]; discriminate].
        intros d' Hd. right. split; [reflexivity|].
        split; [reflexivity|]. now injection Hd as <-.
      * destruct (Hfail info2 E2) as (Hs & Hb & Ht).
        split; [intros d' Hd; destruct (Hs d' Hd)|].
        split; [intro Hd; auto|].
        intros e He. destruct (Ht e He). auto.
  - cbn [metRequestedTol negb andb].
    destruct (RegularizedSolveAfter _ _ _ _ _ _ _ _) as [info2 d2].
    cbn [fst snd].
    destruct (metRequestedTol info2) eqn:E2; cbn [negb].
    + split; [|split; [|intro e]; discriminate].
      intros d' Hd. right. split; [reflexivity|].
      split; [reflexivity|]. now injection Hd as <-.
    + destruct (Hfail info2 E2) as (Hs & Hb & Ht).
      split; [intros d' Hd; destruct (Hs d' Hd)|].
      split; [intro Hd; auto|].
      intros e He. destruct (Ht e He). auto.
Qed.

End SparseInvariants.

Lemma RelativeObjectiveGap_zero_iff_witness :
  3 == 3 /\ RelativeObjectiveGap 3 3 0 == 0.
Proof.
  assert (Hsame : 3 == 3) by reflexivity.
  split; [exact Hsame|].
  exact (proj2 (proj1 (RelativeObjectiveGap_zero_iff 3 3 0)) Hsame).
Defined.

(** At [x = 5] the scalar QP has a positive primal and a negative dual
    objective: the iterate is not accepted, and with [maxIts = 0] the
    iteration limit is reported. *)
Lemma inadmissible_signs_never_converge_witness :
  let g := DenseExample.first_gaps [5] [] [1] [1] in
  let ls := DenseExample.entered 0 [5] [] [1] [1] in
  0 <= primObj g /\ dualObj g <= 0 /\
  relativeComplementarityGapTol (DenseExample.ctrl 0 false) < 2 /\
  relCompGap g = 2 /\
  DenseExample.first_check ls =
    Throw DenseExample.limit0 (record_errors g ls).
Proof.
  intros g ls.
  assert (Hprim : 0 <= primObj g) by (vm_compute; discriminate).
  assert (Hdual : dualObj g <= 0) by (vm_compute; discriminate).
  assert (Htol :
    relativeComplementarityGapTol (DenseExample.ctrl 0 false) < 2)
    by reflexivity.
  pose proof (inadmissible_signs_never_converge (DenseExample.ctrl 0 false)
                DenseExample.Qm DenseExample.Am DenseExample.Gm
                [] [-4] [0] 0 1 1 0 4 0 0%Z ls Hprim Hdual Htol)
    as (Hgap & _ & _ & Hlimit).
  split; [exact Hprim|]. split; [exact Hdual|]. split; [exact Htol|].
  split; [exact Hgap|exact (Hlimit eq_refl)].
Defined.

Lemma dimacsError_bounds_witness :
  let g := DenseExample.first_gaps [2] [] [1 # 1000] [2] in
  let ls1 := record_errors g DenseExample.nearSolution in
  g = DenseExample.first_gaps [2] [] [1 # 1000] [2] /\
  infeasError ls1 <= dimacsError ls1.
Proof.
  intros g ls1. split; [reflexivity|].
  exact (proj2 (dimacsError_bounds
                  DenseExample.Qm DenseExample.Am DenseExample.Gm
                  [] [-4] [0] 1 1 0 4 0 g DenseExample.nearSolution 0
                  eq_refl)).
Defined.

(** Next to the solution of the scalar QP the call returns, and what it
    returns is inside the cone. *)
Lemma normal_return_meets_tolerances_witness :
  let ctrl := DenseExample.ctrl 0 false in
  let st := DenseExample.scalarQP [2] [] [1 # 1000] [2] in
  (0 <= maxIts ctrl)%Z /\ 0 < maxStepRatio ctrl /\
  fst (IPM ctrl st) = Returned /\
  inside_cone
    (iterates
       (mem (snd (run_loop ctrl (fst (enter_loop ctrl st))
                    (snd (enter_loop ctrl st)))))).
Proof.
  intros ctrl st.
  assert (Hits : (0 <= maxIts ctrl)%Z) by (simpl; lia).
  assert (Heta : 0 < maxStepRatio ctrl) by reflexivity.
  assert (Hret : fst (IPM ctrl st) = Returned) by (vm_compute; reflexivity).
  split; [exact Hits|]. split; [exact Heta|]. split; [exact Hret|].
  exact (proj1 (normal_return_meets_tolerances ctrl st Hits Heta Hret)).
Defined.

(** With [maxIts = -1] the warm start [z = 0] outside the cone comes
    back as the result. *)
Lemma negative_maxIts_returns_unchecked_witness :
  let ctrl := DenseExample.ctrl (-1) false in
  let st := DenseExample.scalarQP [2] [] [0] [2] in
  (maxIts ctrl < 0)%Z /\
  IPM ctrl st = (Returned, mem (snd (enter_loop ctrl st))).
Proof.
  intros ctrl st.
  assert (Hits : (maxIts ctrl < 0)%Z) by (simpl; lia).
  split; [exact Hits|].
  exact (proj2 (negative_maxIts_returns_unchecked ctrl st Hits)).
Defined.

(** Overwriting the strictly lower triangle does not change the norm
    computed from the upper one. *)
Lemma HermitianFrobeniusNorm_reads_one_triangle_witness :
  HermitianNorm.Get HermitianExample.symmetric 1 0 <>
    HermitianNorm.Get HermitianExample.upperOnly 1 0 /\
  HermitianNorm.HermitianFrobeniusNorm (fun v => v) HermitianNorm.UPPER
    HermitianExample.symmetric =
  HermitianNorm.HermitianFrobeniusNorm (fun v => v) HermitianNorm.UPPER
    HermitianExample.upperOnly.
Proof.
  split; [discriminate|].
  refine (HermitianFrobeniusNorm_reads_one_triangle (fun v => v)
            HermitianNorm.UPPER HermitianExample.symmetric
            HermitianExample.upperOnly eq_refl eq_refl _).
  intros i j Hin. simpl in Hin.
  destruct i as [|[|i]]; destruct j as [|[|j]];
    try reflexivity; lia.
Defined.

(** When both solvers report failure and the tolerances were met, the
    solve ends the loop by [break]. *)
Lemma two_stage_solve_sound_witness :
  let ctrl := DenseExample.ctrl 1 false in
  @two_stage_solve SparseExample.backend ctrl true SparseExample.JStatic
    [1; 1] [1; 1] (LDLInitialize SparseExample.JStatic) [1; 1] = SolveBreak /\
  metRequestedTol
    (fst (@RegularizedSolveAfter SparseExample.backend SparseExample.JStatic
            [1; 1] [1; 1] (LDLInitialize SparseExample.JStatic) [1; 1]
            (relTol (solveCtrl ctrl)) (maxRefineIts (solveCtrl ctrl))
            (progress (solveCtrl ctrl)))) = false.
Proof.
  intro ctrl.
  assert (Hout :
    @two_stage_solve SparseExample.backend ctrl true SparseExample.JStatic
      [1; 1] [1; 1] (LDLInitialize SparseExample.JStatic) [1; 1]
    = SolveBreak) by reflexivity.
  split; [exact Hout|].
  exact (proj2 (proj2 (proj1 (proj2
           (@two_stage_solve_sound SparseExample.backend ctrl true
              SparseExample.JStatic [1; 1] [1; 1]
              (LDLInitialize SparseExample.JStatic) [1; 1])) Hout))).
Defined.

Lemma step_lengths_in_unit_interval_witness :
  0 < maxStepRatio (DenseExample.ctrl 1 false) /\
  0 <= fst (step_lengths (DenseExample.ctrl 1 false) [1] [-2] [1] [1]) /\
  fst (step_lengths (DenseExample.ctrl 1 false) [1] [-2] [1] [1]) <= 1.
Proof.
  assert (Heta : 0 < maxStepRatio (DenseExample.ctrl 1 false))
    by reflexivity.
  assert (Hpos : forall v : Q, In v [1] -> 0 < v)
    by (intros v [<-|[]]; reflexivity).
  split; [exact Heta|].
  exact (proj1 (step_lengths_in_unit_interval (DenseExample.ctrl 1 false)
                  [1] [-2] [1] [1] Heta Hpos Hpos)).
Defined.

Lemma normSquared_nonneg_witness :
  HermitianNorm.Height HermitianExample.zero =
    HermitianNorm.Width HermitianExample.zero /\
  (forall i j,
     HermitianNorm.in_triangle HermitianNorm.LOWER 2 i j ->
     HermitianNorm.Get HermitianExample.zero i j == 0) /\
  HermitianNorm.normSquared HermitianNorm.LOWER HermitianExample.zero == 0.
Proof.
  assert (Hzero : forall i j,
            HermitianNorm.in_triangle HermitianNorm.LOWER 2 i j ->
            HermitianNorm.Get HermitianExample.zero i j == 0).
  { intros i j Hin. simpl in Hin.
    destruct i as [|[|i]]; destruct j as [|[|j]];
      try reflexivity; lia. }
  split; [reflexivity|]. split; [exact Hzero|].
  exact (proj2 (normSquared_nonneg HermitianNorm.LOWER
                  HermitianExample.zero) eq_refl Hzero).
Defined.

Lemma localLength_counts :
  DistHermitianNorm.counts_local_indices HermitianExample.localLength.
Proof.
  intros n shift stride iLocal Hstride.
  unfold HermitianExample.localLength.
  destruct (Nat.leb_spec n shift) as [Hle|Hgt]; [nia|].
  assert (Hne : stride <> 0%nat) by lia.
  pose proof (Nat.Div0.mul_div_le (n - shift - 1) stride) as Hdown.
  split; intro Hlt.
  - assert (Hi : (stride * iLocal <= stride * ((n - shift - 1) / stride))%nat)
      by (apply Nat.mul_le_mono_l; lia).
    nia.
  - assert (Hi : (iLocal <= (n - shift - 1) / stride)%nat)
      by (apply Nat.div_le_lower_bound; [exact Hne|nia]).
    lia.
Qed.

(** On a grid of two rows and one column, overwriting the strictly lower
    triangle, which the second process holds an entry of, does not change
    what the first process gets from the upper one. *)
Lemma distributed_norm_reads_one_triangle_witness :
  DistHermitianNorm.GetLocalEntry
    (HermitianExample.localPart HermitianExample.symmetric 2 1 1 0) 0 0 <>
  DistHermitianNorm.GetLocalEntry
    (HermitianExample.localPart HermitianExample.upperOnly 2 1 1 0) 0 0 /\
  DistHermitianNorm.HermitianFrobeniusNorm HermitianExample.localLength
    (fun v => v) HermitianNorm.UPPER
    (HermitianExample.twoRows HermitianExample.symmetric)
    (HermitianExample.localPart HermitianExample.symmetric 2 1 0 0) =
  DistHermitianNorm.HermitianFrobeniusNorm HermitianExample.localLength
    (fun v => v) HermitianNorm.UPPER
    (HermitianExample.twoRows HermitianExample.upperOnly)
    (HermitianExample.localPart HermitianExample.upperOnly 2 1 0 0).
Proof.
  assert (Hupper : forall i j, (i <= j)%nat ->
            HermitianNorm.Get HermitianExample.symmetric i j =
            HermitianNorm.Get HermitianExample.upperOnly i j).
  { intros i j Hle.
    destruct i as [|[|i]]; destruct j as [|[|j]];
      try reflexivity; lia. }
  assert (Hsame : forall p,
            DistHermitianNorm.same_triangle HermitianNorm.UPPER
              (HermitianExample.localPart HermitianExample.symmetric
                 2 1 p 0)
              (HermitianExample.localPart HermitianExample.upperOnly
                 2 1 p 0)).
  { intro p. unfold DistHermitianNorm.same_triangle.
    split; [reflexivity|]. split; [reflexivity|]. split; [reflexivity|].
    split; [reflexivity|]. split; [reflexivity|]. split; [reflexivity|].
    intros iLocal jLocal. cbv zeta. intro Hle. apply Hupper. exact Hle. }
  split; [discriminate|].
  refine (distributed_norm_reads_one_triangle (fun v => v)
            HermitianExample.localLength HermitianNorm.UPPER
            (HermitianExample.twoRows HermitianExample.symmetric)
            (HermitianExample.twoRows HermitianExample.upperOnly)
            (HermitianExample.localPart HermitianExample.symmetric 2 1 0 0)
            (HermitianExample.localPart HermitianExample.upperOnly 2 1 0 0)
            localLength_counts _ _ eq_refl eq_refl).
  - repeat constructor.
  - constructor; [apply Hsame|]. constructor; [apply Hsame|]. constructor.
Defined.
